(** * spotify_to_tidal: the synchronisation core ([sync.py])

    A shallow embedding of [src/spotify_to_tidal/sync.py] and the properties
    its specification states about it.

    Conventions of the embedding.
    - A Python [str] is a Rocq [string], one [ascii] per character.  The two
      operations that depend on the Unicode character database, [str.lower]
      and [unicodedata.normalize('NFD', _)] followed by the ASCII round trip,
      are the fields of the class [Unicode]; every general theorem holds for
      all of its instances.  [AsciiText] is the instance for pure ASCII text,
      used where a statement is evaluated on concrete tracks.
    - Python's truthiness tests ([if x:], [not x]) are written out.
    - The module-level caches, [print], [time.sleep], the catalog requests and
      the playlist mutations are fields of one explicit [State], threaded
      through a state-and-exception monad [M].
    - The coroutines that [asyncio.gather] collects run one after the other,
      in list order; the semaphore and the leaky-bucket task, which only
      delay the searches, are left out.
    - [duration_ms/1000] and the comparison with the tolerance are computed
      over the rationals. *)

From Stdlib Require Import Ascii String QArith Qabs.
From stdpp Require Import base option list gmap strings numbers.

Local Open Scope string_scope.
Local Open Scope list_scope.
Local Open Scope Z_scope.

(** ** Python strings *)

Module Str.

(** [needle in hay] for two strings. *)
Fixpoint contains (needle hay : string) : bool :=
  String.prefix needle hay ||
  match hay with
  | EmptyString => false
  | String _ hay' => contains needle hay'
  end.

(** [s.split(sep)] for a non-empty [sep]: the first piece and the list of
    the remaining ones.  [skip] counts the characters of a separator that
    was just recognised and is still being consumed. *)
Fixpoint split_go (sep : string) (skip : nat) (s : string) : string * list string :=
  match s with
  | EmptyString => (EmptyString, [])
  | String c s' =>
      match skip with
      | S k => split_go sep k s'
      | O =>
          if String.prefix sep s
          then (EmptyString,
                let '(p, ps) := split_go sep (String.length sep - 1) s' in p :: ps)
          else let '(p, ps) := split_go sep 0 s' in (String c p, ps)
      end
  end.

Definition split (sep s : string) : list string :=
  let '(p, ps) := split_go sep 0 s in p :: ps.

(** [s.split(sep)[0]]; the list [split] returns is never empty. *)
Definition split0 (sep s : string) : string := (split_go sep 0 s).1.

(** [str.isspace] on the code points below 256. *)
Definition isspace (c : ascii) : bool :=
  let n := nat_of_ascii c in
  ((9 <=? n)%nat && (n <=? 13)%nat) || ((28 <=? n)%nat && (n <=? 32)%nat)
  || (n =? 133)%nat || (n =? 160)%nat.

Fixpoint lstrip (s : string) : string :=
  match s with
  | EmptyString => EmptyString
  | String c s' => if isspace c then lstrip s' else s
  end.

Definition rstrip (s : string) : string := String.rev (lstrip (String.rev s)).

(** [s.strip()] *)
Definition strip (s : string) : string := rstrip (lstrip s).

(** [sep.join(l)] *)
Fixpoint join (sep : string) (l : list string) : string :=
  match l with
  | [] => EmptyString
  | [x] => x
  | x :: l' => x +:+ sep +:+ join sep l'
  end.

End Str.

(** The part of Python's text model that rests on the Unicode tables. *)
Class Unicode := {
  (** [s.lower()] *)
  lower : string → string;
  (** [unicodedata.normalize('NFD', s).encode('ascii', 'ignore').decode('ascii')] *)
  normalize : string → string
}.

(** ** Data model: the two catalogs' records, as [sync.py] reads them *)

Record SpotifyArtist := { sa_name : string }.

Record SpotifyAlbum := {
  sal_name : string;
  (** ['artists' in album]: the key may be absent *)
  sal_artists : option (list SpotifyArtist)
}.

(** [t_spotify.SpotifyTrack] *)
Record SpotifyTrack := {
  sp_id : option string;            (* ['id'], nullable *)
  sp_name : string;
  sp_artists : list SpotifyArtist;
  sp_duration_ms : Z;
  sp_album : option SpotifyAlbum;   (* ['album' in spotify_track] *)
  sp_track_number : Z;
  (** [external_ids]: [None] when it has no ['isrc'] key, [Some v] when it
      has one, whose value [v] is a code or null *)
  sp_isrc : option (option string)
}.

Record TidalArtist := { ta_name : string }.

(** [tidalapi.Track] *)
Record TidalTrack := {
  td_id : Z;
  td_name : string;
  td_version : option string;
  td_artists : list TidalArtist;
  td_duration : Z;                  (* seconds *)
  td_isrc : option string;
  td_available : bool
}.

Global Instance SpotifyArtist_eq_dec : EqDecision SpotifyArtist.
Proof. solve_decision. Defined.
Global Instance TidalArtist_eq_dec : EqDecision TidalArtist.
Proof. solve_decision. Defined.

(** An optional string as Python tests it in [if x:] and [not x]: [None] and
    the empty string are falsy. *)
Definition str_truthy (i : option string) : bool :=
  match i with
  | Some s => negb (String.eqb s EmptyString)
  | None => false
  end.

(** ** Identity matcher *)

Section Matcher.
Context {U : Unicode}.

(* only take the first part of a string before any hyphens or brackets *)
Definition simple (input_string : string) : string :=
  Str.strip (Str.split0 "[" (Str.strip (Str.split0 "(" (Str.strip (Str.split0 "-" input_string))))).

Definition isrc_match (tidal_track : TidalTrack) (spotify_track : SpotifyTrack) : bool :=
  match sp_isrc spotify_track with
  | Some isrc => bool_decide (td_isrc tidal_track = isrc)
  | None => false
  end.

(** [abs(tidal_track.duration - spotify_track['duration_ms']/1000) < tolerance],
    computed over the rationals. *)
Definition duration_match_tol (tolerance : Q) (tidal_track : TidalTrack)
    (spotify_track : SpotifyTrack) : bool :=
  negb (Qle_bool tolerance
          (Qabs (inject_Z (td_duration tidal_track)
                 - inject_Z (sp_duration_ms spotify_track) / inject_Z 1000))).

Definition duration_match : TidalTrack → SpotifyTrack → bool :=
  duration_match_tol (inject_Z 2).

(** The two local variables of [exclusion_rule]. *)
Definition spotify_has_pattern (pattern : string) (spotify_track : SpotifyTrack) : bool :=
  Str.contains pattern (lower (sp_name spotify_track)).

Definition tidal_has_pattern (pattern : string) (tidal_track : TidalTrack) : bool :=
  Str.contains pattern (lower (td_name tidal_track))
  || match td_version tidal_track with
     | Some version => Str.contains pattern (lower version)
     | None => false
     end.

Definition exclusion_rule (pattern : string) (tidal_track : TidalTrack)
    (spotify_track : SpotifyTrack) : bool :=
  negb (Bool.eqb (spotify_has_pattern pattern spotify_track)
                 (tidal_has_pattern pattern tidal_track)).

Definition name_match (tidal_track : TidalTrack) (spotify_track : SpotifyTrack) : bool :=
  if exclusion_rule "instrumental" tidal_track spotify_track then false
  else if exclusion_rule "acapella" tidal_track spotify_track then false
  else if exclusion_rule "remix" tidal_track spotify_track then false
  else
    let simple_spotify_track :=
      Str.strip (Str.split0 "feat." (simple (lower (sp_name spotify_track)))) in
    Str.contains simple_spotify_track (lower (td_name tidal_track))
    || Str.contains (normalize simple_spotify_track)
                    (normalize (lower (td_name tidal_track))).

Definition split_artist_name (artist : string) : list string :=
  if Str.contains "&" artist then Str.split "&" artist
  else if Str.contains "," artist then Str.split "," artist
  else [artist].

(** [get_tidal_artists] and [get_spotify_artists] differ only in how the
    artist name is read off the record; [names] is that list of names. *)
Definition get_artists (names : list string) (do_normalize : bool) : gset string :=
  let result :=
    concat (map (λ artist_name,
                   split_artist_name
                     (if do_normalize then normalize artist_name else artist_name))
                names) in
  list_to_set (map (λ x, simple (lower (Str.strip x))) result).

Definition get_tidal_artists (artists : list TidalArtist) (do_normalize : bool) : gset string :=
  get_artists (map ta_name artists) do_normalize.

Definition get_spotify_artists (artists : list SpotifyArtist) (do_normalize : bool) : gset string :=
  get_artists (map sa_name artists) do_normalize.

(** [artist_match(tidal, spotify)], for a track or an album on either
    side: only the [artists] of both are read. *)
Definition artist_match (tidal : list TidalArtist) (spotify : list SpotifyArtist) : bool :=
  if bool_decide (get_tidal_artists tidal false ∩ get_spotify_artists spotify false ≠ ∅)
  then true
  else bool_decide (get_tidal_artists tidal true ∩ get_spotify_artists spotify true ≠ ∅).

Definition match_ (tidal_track : TidalTrack) (spotify_track : SpotifyTrack) : bool :=
  if negb (str_truthy (sp_id spotify_track)) then false
  else
    isrc_match tidal_track spotify_track
    || (duration_match tidal_track spotify_track
        && name_match tidal_track spotify_track
        && artist_match (td_artists tidal_track) (sp_artists spotify_track)).

End Matcher.

(** ** State, exceptions and the monad the program runs in *)

Inductive Exception :=
  | TooManyRequests                          (* tidalapi.exceptions.TooManyRequests *)
  | RequestException (response : option string)  (* requests.exceptions.RequestException *)
  | SystemExit (code : Z)                    (* raised by sys.exit *)
  | IndexError
  | ZeroDivisionError
  | AssertionError.

(** What [print] writes, one constructor per [print] call of [sync.py]. *)
Inductive Event :=
  | DuplicateFound (track_name artist_names : string)
  | NoNewTracks
  | CouldNotFindTrack (id : option string) (artist_names track_name : string)
  | NoChangesToWrite
  | LoadingFavorites
  | OccurredRetrying (e : Exception) (remaining : nat)
  | CouldNotBeRecovered (e : Exception)
  | ResponseMessage (text : string)
  | ResponseHeaders (text : string)
  | AbortingSync
  | ArgumentsProvided
  | Traceback.

(** The two calls of [tidalapi_patch] that change the target. *)
Inductive Mutation :=
  | add_multiple_tracks_to_playlist (track_ids : list Z) (sync_favorites : bool)
  | set_tidal_playlist (track_ids : list Z) (sync_favorites : bool).

Global Instance Mutation_eq_dec : EqDecision Mutation.
Proof. solve_decision. Defined.

(** Modelled from the spec: the two caches of [cache.py], which is not part
    of the sources.  Section 4.3 describes them as two independent key-value
    stores keyed by the source id: [MatchCache.insert], [.get], and
    [FailureCache.cacheFailure], [.hasFailure], [.removeFailure].  The other
    fields record the effects of the run on the outside world. *)
Record State := {
  track_match_cache : gmap (option string) Z;
  failure_cache : gset (option string);
  stdout : list Event;            (* lines printed, oldest first *)
  slept : list Z;                 (* [time.sleep] calls in seconds, oldest first *)
  requests : nat;                 (* catalog requests issued so far *)
  playlist_calls : list Mutation  (* mutations issued, oldest first *)
}.

Inductive Result (A : Type) :=
  | Ok (a : A)
  | Raise (e : Exception).
Arguments Ok {A} a.
Arguments Raise {A} e.

Definition M (A : Type) : Type := State → Result A * State.

Global Instance M_ret : MRet M := λ A a s, (Ok a, s).
Global Instance M_bind : MBind M := λ A B f m s,
  match m s with
  | (Ok a, s') => f a s'
  | (Raise e, s') => (Raise e, s')
  end.

Definition raise {A} (e : Exception) : M A := λ s, (Raise e, s).

(** [try: m  except <caught> as e: handler e] *)
Definition try_except {A} (m : M A) (caught : Exception → bool)
    (handler : Exception → M A) : M A := λ s,
  match m s with
  | (Raise e, s') => if caught e then handler e s' else (Raise e, s')
  | r => r
  end.

(** Field updates of [State]. *)
Definition set_track_match_cache (f : gmap (option string) Z → gmap (option string) Z)
    (s : State) : State :=
  {| track_match_cache := f (track_match_cache s); failure_cache := failure_cache s;
     stdout := stdout s; slept := slept s; requests := requests s;
     playlist_calls := playlist_calls s |}.

Definition set_failure_cache (f : gset (option string) → gset (option string))
    (s : State) : State :=
  {| track_match_cache := track_match_cache s; failure_cache := f (failure_cache s);
     stdout := stdout s; slept := slept s; requests := requests s;
     playlist_calls := playlist_calls s |}.

Definition add_stdout (evs : list Event) (s : State) : State :=
  {| track_match_cache := track_match_cache s; failure_cache := failure_cache s;
     stdout := stdout s ++ evs; slept := slept s; requests := requests s;
     playlist_calls := playlist_calls s |}.

Definition add_slept (seconds : list Z) (s : State) : State :=
  {| track_match_cache := track_match_cache s; failure_cache := failure_cache s;
     stdout := stdout s; slept := slept s ++ seconds; requests := requests s;
     playlist_calls := playlist_calls s |}.

Definition add_requests (n : nat) (s : State) : State :=
  {| track_match_cache := track_match_cache s; failure_cache := failure_cache s;
     stdout := stdout s; slept := slept s; requests := (n + requests s)%nat;
     playlist_calls := playlist_calls s |}.

Definition add_playlist_calls (calls : list Mutation) (s : State) : State :=
  {| track_match_cache := track_match_cache s; failure_cache := failure_cache s;
     stdout := stdout s; slept := slept s; requests := requests s;
     playlist_calls := playlist_calls s ++ calls |}.

Definition print (ev : Event) : M unit := λ s, (Ok (), add_stdout [ev] s).

Definition time_sleep (seconds : Z) : M unit := λ s, (Ok (), add_slept [seconds] s).

Definition sys_exit {A} (code : Z) : M A := raise (SystemExit code).

Definition issue (mu : Mutation) : M unit := λ s, (Ok (), add_playlist_calls [mu] s).

(** [for x in l: acc = f acc x] *)
Fixpoint foldM {A B} (f : B → A → M B) (l : list A) (b : B) : M B :=
  match l with
  | [] => mret b
  | x :: l' => b' ← f b x; foldM f l' b'
  end.

(** [[await f(x) for x in l]], in list order *)
Fixpoint mapM' {A B} (f : A → M B) (l : list A) : M (list B) :=
  match l with
  | [] => mret []
  | x :: l' => y ← f x; ys ← mapM' f l'; mret (y :: ys)
  end.

(** Modelled from the spec: [track_match_cache] of [cache.py], a key-value
    store from source id to target id (section 4.3). *)
Module MatchCache.
Definition insert (mapping : option string * Z) : M unit := λ s,
  (Ok (), set_track_match_cache (<[mapping.1 := mapping.2]>) s).
Definition get (track_id : option string) : M (option Z) := λ s,
  (Ok (track_match_cache s !! track_id), s).
End MatchCache.

(** Modelled from the spec: [failure_cache] of [cache.py], the set of source
    ids marked as exhausted-search (section 4.3). *)
Module FailureCache.
Definition cache_match_failure (track_id : option string) : M unit := λ s,
  (Ok (), set_failure_cache (λ f, {[track_id]} ∪ f) s).
Definition has_match_failure (track_id : option string) : M bool := λ s,
  (Ok (bool_decide (track_id ∈ failure_cache s)), s).
Definition remove_match_failure (track_id : option string) : M unit := λ s,
  (Ok (), set_failure_cache (λ f, f ∖ {[track_id]}) s).
End FailureCache.

(** A target id as Python tests it in [if tidal_id:]: [None] and [0] are falsy. *)
Definition tidal_id_truthy (i : option Z) : bool :=
  match i with
  | Some z => negb (z =? 0)
  | None => false
  end.

(** [l[i]] with Python's negative indices. *)
Definition py_index {A} (l : list A) (i : Z) : M A :=
  let n := Z.of_nat (length l) in
  let j := if i <? 0 then i + n else i in
  if (j <? 0) || (n <=? j) then raise IndexError
  else match l !! Z.to_nat j with
       | Some x => mret x
       | None => raise IndexError
       end.

(** ** External collaborators *)

(** [tidalapi.Album].  [album.tracks()] is a request to the catalog of its
    own: [tal_tracks album n] is its answer when [n] requests were issued
    before it. *)
Record TidalAlbum := {
  tal_name : string;
  tal_artists : list TidalArtist;
  tal_num_tracks : Z;
  tal_tracks : nat → Result (list TidalTrack)
}.

(** The catalog's search, a black box from a query to a ranked candidate
    list.  The first argument is the number of requests issued before this
    one, so that the service may answer a repeated query differently (a
    transient error first, candidates later). *)
Class TidalSession := {
  search_albums : nat → string → Result (list TidalAlbum);
  search_tracks : nat → string → Result (list TidalTrack);
  (** [tidal_session.user.favorites.tracks(order='DATE')] *)
  favorites_tracks : list TidalTrack
}.

(** [difflib.SequenceMatcher(None, a, b).ratio()] *)
Class Difflib := { ratio : string → string → Q }.

(** One page of [spotify_session.current_user_saved_tracks]. *)
Record Page := {
  pg_items : list (option SpotifyTrack);   (* [item['track']], possibly [None] *)
  pg_next : option string;
  pg_limit : Z;
  pg_total : Z
}.

Class SpotifySession := { current_user_saved_tracks : Z → Page }.

(** ** The synchronisation functions *)

Section Sync.
Context {U : Unicode} {D : Difflib} {TS : TidalSession} {SS : SpotifySession}.

Definition request {A} (search : nat → string → Result A) (query : string) : M A := λ s,
  (search (requests s) query, add_requests 1 s).

(** [album.tracks()] *)
Definition album_tracks_request (album : TidalAlbum) : M (list TidalTrack) := λ s,
  (tal_tracks album (requests s), add_requests 1 s).

Definition test_album_similarity_thr (threshold : Q) (spotify_album_name : string)
    (spotify_album_artists : list SpotifyArtist) (tidal_album : TidalAlbum) : bool :=
  Qle_bool threshold (ratio (simple spotify_album_name) (simple (tal_name tidal_album)))
  && artist_match (tal_artists tidal_album) spotify_album_artists.

Definition test_album_similarity := test_album_similarity_thr (6 # 10).

(** The [for album in album_result['albums']] loop of
    [_search_for_track_in_album]. *)
Fixpoint _search_albums_loop (spotify_track : SpotifyTrack) (album_name : string)
    (album_artists : list SpotifyArtist) (albums : list TidalAlbum)
    : M (option TidalTrack) :=
  match albums with
  | [] => mret None
  | album :: albums' =>
      if (sp_track_number spotify_track <=? tal_num_tracks album)
         && test_album_similarity album_name album_artists album
      then
        album_tracks ← album_tracks_request album;
        if Z.of_nat (length album_tracks) <? sp_track_number spotify_track
        then
          (* incorrect metadata :( *)
          if Z.of_nat (length album_tracks) =? tal_num_tracks album
          then raise AssertionError
          else _search_albums_loop spotify_track album_name album_artists albums'
        else
          track ← py_index album_tracks (sp_track_number spotify_track - 1);
          if match_ track spotify_track
          then FailureCache.remove_match_failure (sp_id spotify_track);;
               mret (Some track)
          else _search_albums_loop spotify_track album_name album_artists albums'
      else _search_albums_loop spotify_track album_name album_artists albums'
  end.

(* search for album name and first album artist *)
Definition _search_for_track_in_album (spotify_track : SpotifyTrack)
    : M (option TidalTrack) :=
  match sp_album spotify_track with
  | Some album =>
      match sal_artists album with
      | Some ((first_artist :: _) as album_artists) =>
          let query := simple (sal_name album) +:+ " " +:+ simple (sa_name first_artist) in
          album_result ← request search_albums query;
          _search_albums_loop spotify_track (sal_name album) album_artists album_result
      | _ => mret None
      end
  | None => mret None
  end.

Fixpoint _search_tracks_loop (spotify_track : SpotifyTrack) (tracks : list TidalTrack)
    : M (option TidalTrack) :=
  match tracks with
  | [] => mret None
  | track :: tracks' =>
      if match_ track spotify_track
      then FailureCache.remove_match_failure (sp_id spotify_track);;
           mret (Some track)
      else _search_tracks_loop spotify_track tracks'
  end.

(* if album search fails then search for track name and first artist *)
Definition _search_for_standalone_track (spotify_track : SpotifyTrack)
    : M (option TidalTrack) :=
  first_artist ← py_index (sp_artists spotify_track) 0;
  let query := simple (sp_name spotify_track) +:+ " " +:+ simple (sa_name first_artist) in
  tracks ← request search_tracks query;
  _search_tracks_loop spotify_track tracks.

(** [tidal_search]; the two [rate_limiter.acquire()] calls only delay it. *)
Definition tidal_search (spotify_track : SpotifyTrack) : M (option TidalTrack) :=
  album_search ← _search_for_track_in_album spotify_track;
  match album_search with
  | Some track => mret (Some track)
  | None =>
      track_search ← _search_for_standalone_track spotify_track;
      match track_search with
      | Some track => mret (Some track)
      | None =>
          (* if none of the search modes succeeded then store the track id to the failure cache *)
          FailureCache.cache_match_failure (sp_id spotify_track);;
          mret None
      end
  end.

(* sleep variable length of time depending on retry number *)
Definition sleep_schedule : gmap nat Z :=
  {[ 5%nat := 1; 4%nat := 10; 3%nat := 60; 2%nat := 5 * 60; 1%nat := 10 * 60 ]}.

Definition is_request_error (e : Exception) : bool :=
  match e with
  | TooManyRequests | RequestException _ => true
  | _ => false
  end.

(* utility to repeat calling the function up to 5 times if an exception is thrown *)
Fixpoint repeat_on_request_error {A} (function : M A) (remaining : nat) : M A :=
  try_except function is_request_error (λ e,
    (match remaining with
     | O => print (CouldNotBeRecovered e)
     | S _ => print (OccurredRetrying e remaining)
     end);;
    (match e with
     | RequestException (Some response) =>
         print (ResponseMessage response);; print (ResponseHeaders response)
     | _ => mret ()
     end);;
    match remaining with
    | O =>
        print AbortingSync;; print ArgumentsProvided;; print Traceback;;
        sys_exit 1
    | S remaining' =>
        time_sleep (default 1 (sleep_schedule !! remaining));;
        repeat_on_request_error function remaining'
    end).

(** [fetch_function] is a call to the Spotify session; the items whose
    ['track'] is [None] are left out of every page. *)
Definition page_tracks (results : Page) : list SpotifyTrack :=
  omap id (pg_items results).

(** [math.ceil(a / b)] for [b] other than zero. *)
Definition ceil_div (a b : Z) : Z := - ((- a) `div` b).

Definition _fetch_all_from_spotify_in_chunks (fetch_function : Z → Page)
    : M (list SpotifyTrack) :=
  let results := fetch_function 0 in
  let output := page_tracks results in
  (* Get all the remaining tracks in parallel *)
  if str_truthy (pg_next results)
  then
    if pg_limit results =? 0 then raise ZeroDivisionError
    else
      let offsets :=
        map (λ n, pg_limit results * n)
            (seqZ 1 (ceil_div (pg_total results) (pg_limit results) - 1)) in
      let extra_results := map fetch_function offsets in
      mret (output ++ concat (map page_tracks extra_results))
  else mret output.

Definition get_tracks_from_spotify_favorites : M (list SpotifyTrack) :=
  print LoadingFavorites;;
  tracks ← _fetch_all_from_spotify_in_chunks current_user_saved_tracks;
  mret (reverse tracks).

(** The loop of [_populate_one_track_from_spotify] over the snapshot
    [list(enumerate(tidal_tracks))]; it returns [tidal_tracks] as the call
    leaves it. *)
Fixpoint _populate_one_track_from_spotify_loop (spotify_track : SpotifyTrack)
    (snapshot : list (nat * TidalTrack)) (tidal_tracks : list TidalTrack)
    : M (list TidalTrack) :=
  match snapshot with
  | [] => mret tidal_tracks
  | (idx, tidal_track) :: snapshot' =>
      if td_available tidal_track && match_ tidal_track spotify_track
      then MatchCache.insert (sp_id spotify_track, td_id tidal_track);;
           mret (delete idx tidal_tracks)
      else _populate_one_track_from_spotify_loop spotify_track snapshot' tidal_tracks
  end.

Definition _populate_one_track_from_spotify (tidal_tracks : list TidalTrack)
    (spotify_track : SpotifyTrack) : M (list TidalTrack) :=
  _populate_one_track_from_spotify_loop spotify_track (imap pair tidal_tracks) tidal_tracks.

Fixpoint _populate_one_track_from_tidal_loop (tidal_track : TidalTrack)
    (snapshot : list (nat * SpotifyTrack)) (spotify_tracks : list SpotifyTrack)
    : M (list SpotifyTrack) :=
  match snapshot with
  | [] => mret spotify_tracks
  | (idx, spotify_track) :: snapshot' =>
      if td_available tidal_track && match_ tidal_track spotify_track
      then MatchCache.insert (sp_id spotify_track, td_id tidal_track);;
           mret (delete idx spotify_tracks)
      else _populate_one_track_from_tidal_loop tidal_track snapshot' spotify_tracks
  end.

Definition _populate_one_track_from_tidal (spotify_tracks : list SpotifyTrack)
    (tidal_track : TidalTrack) : M (list SpotifyTrack) :=
  _populate_one_track_from_tidal_loop tidal_track (imap pair spotify_tracks) spotify_tracks.

(** Populate the track match cache with all the existing tracks in Tidal
    playlist corresponding to Spotify playlist *)
Definition populate_track_match_cache (spotify_tracks_ : list SpotifyTrack)
    (tidal_tracks_ : list TidalTrack) : M unit :=
  (* make a copy of the tracks to avoid modifying original arrays *)
  let spotify_tracks := spotify_tracks_ in
  let tidal_tracks := tidal_tracks_ in
  (* first populate from the tidal tracks *)
  spotify_tracks ← foldM _populate_one_track_from_tidal tidal_tracks spotify_tracks;
  (* then populate from the subset of Spotify tracks that didn't match *)
  foldM _populate_one_track_from_spotify spotify_tracks tidal_tracks;;
  mret ().

(** Extracts only the new tracks in the Spotify playlist that are not
    already on Tidal or known match failures *)
Fixpoint get_new_spotify_tracks_loop (spotify_tracks : list SpotifyTrack)
    (results : list SpotifyTrack) : M (list SpotifyTrack) :=
  match spotify_tracks with
  | [] => mret results
  | spotify_track :: spotify_tracks' =>
      if negb (str_truthy (sp_id spotify_track))
      then get_new_spotify_tracks_loop spotify_tracks' results
      else
        cached ← MatchCache.get (sp_id spotify_track);
        failed ← FailureCache.has_match_failure (sp_id spotify_track);
        if negb (tidal_id_truthy cached) && negb failed
        then get_new_spotify_tracks_loop spotify_tracks' (results ++ [spotify_track])
        else get_new_spotify_tracks_loop spotify_tracks' results
  end.

Definition get_new_spotify_tracks (spotify_tracks : list SpotifyTrack)
    (old_tidal_tracks : list TidalTrack) : M (list SpotifyTrack) :=
  populate_track_match_cache spotify_tracks old_tidal_tracks;;
  get_new_spotify_tracks_loop spotify_tracks [].

Definition artist_names_of (spotify_track : SpotifyTrack) (sep : string) : string :=
  Str.join sep (map sa_name (sp_artists spotify_track)).

(** gets list of corresponding tidal track ids for each spotify track,
    ignoring duplicates *)
Fixpoint get_tracks_for_new_tidal_playlist_loop (spotify_tracks : list SpotifyTrack)
    (output : list Z) (seen_tracks : gset Z) : M (list Z) :=
  match spotify_tracks with
  | [] => mret output
  | spotify_track :: spotify_tracks' =>
      if negb (str_truthy (sp_id spotify_track))
      then get_tracks_for_new_tidal_playlist_loop spotify_tracks' output seen_tracks
      else
        tidal_id ← MatchCache.get (sp_id spotify_track);
        match tidal_id with
        | Some tidal_id' =>
            if negb (tidal_id' =? 0)
            then
              if bool_decide (tidal_id' ∈ seen_tracks)
              then
                print (DuplicateFound (sp_name spotify_track)
                                      (artist_names_of spotify_track ", "));;
                get_tracks_for_new_tidal_playlist_loop spotify_tracks' output seen_tracks
              else
                get_tracks_for_new_tidal_playlist_loop spotify_tracks'
                  (output ++ [tidal_id']) ({[tidal_id']} ∪ seen_tracks)
            else get_tracks_for_new_tidal_playlist_loop spotify_tracks' output seen_tracks
        | None => get_tracks_for_new_tidal_playlist_loop spotify_tracks' output seen_tracks
        end
  end.

Definition get_tracks_for_new_tidal_playlist (spotify_tracks : list SpotifyTrack)
    : M (list Z) :=
  get_tracks_for_new_tidal_playlist_loop spotify_tracks [] ∅.

(** The loop of [search_new_tracks_on_tidal] that adds the search results
    to the cache. *)
Fixpoint add_search_results (new_spotify_tracks : list SpotifyTrack)
    (search_results : list (option TidalTrack)) : M unit :=
  match new_spotify_tracks, search_results with
  | spotify_track :: new_spotify_tracks', result :: search_results' =>
      (match result with
       | Some track => MatchCache.insert (sp_id spotify_track, td_id track)
       | None =>
           print (CouldNotFindTrack (sp_id spotify_track)
                                    (artist_names_of spotify_track ",")
                                    (sp_name spotify_track))
       end);;
      add_search_results new_spotify_tracks' search_results'
  | [], _ => mret ()
  | _ :: _, [] => raise IndexError
  end.

(** Searches for the new Spotify tracks on Tidal.  The searches are run
    one after the other, in list order; the semaphore and the leaky-bucket
    task only delay them. *)
Definition search_new_tracks_on_tidal (new_spotify_tracks : list SpotifyTrack)
    : M (list (option TidalTrack)) :=
  search_results ←
    mapM' (λ t, repeat_on_request_error (tidal_search t) 5) new_spotify_tracks;
  add_search_results new_spotify_tracks search_results;;
  mret search_results.

(** Updates the Tidal playlist or favorites with the new tracks *)
Definition update_tidal_playlist (old_tidal_tracks : list TidalTrack)
    (new_tidal_tracks : list (option TidalTrack)) (sync_favorites : bool) : M unit :=
  let old_tidal_track_ids := map td_id old_tidal_tracks in
  let new_tidal_track_ids := map td_id (omap id new_tidal_tracks) in
  if bool_decide (new_tidal_track_ids = old_tidal_track_ids)
  then print NoChangesToWrite
  else if bool_decide (take (length old_tidal_track_ids) new_tidal_track_ids
                       = old_tidal_track_ids)
  then
    (* Append new tracks to the existing playlist or favorites if possible *)
    issue (add_multiple_tracks_to_playlist
             (drop (length old_tidal_track_ids) new_tidal_track_ids) sync_favorites)
  else
    (* Erase old playlist or favorites and add new tracks from scratch if any reordering occured *)
    issue (set_tidal_playlist new_tidal_track_ids sync_favorites).

Definition sync_tracks (spotify_tracks : list SpotifyTrack)
    (old_tidal_tracks : list TidalTrack) (sync_favorites : bool) : M unit :=
  new_spotify_tracks ← get_new_spotify_tracks spotify_tracks old_tidal_tracks;
  match new_spotify_tracks with
  | [] => print NoNewTracks
  | _ :: _ =>
      new_tidal_tracks ← search_new_tracks_on_tidal new_spotify_tracks;
      update_tidal_playlist old_tidal_tracks new_tidal_tracks sync_favorites
  end.

Definition sync_favorites : M unit :=
  spotify_tracks ← get_tracks_from_spotify_favorites;
  let old_tidal_tracks := favorites_tracks in
  sync_tracks spotify_tracks old_tidal_tracks true.

End Sync.

(** Modelled from the spec: what the two mutations of [tidalapi_patch] (not
    part of the sources) do to the target's ordered id sequence.  Section 4.5:
    an append adds the given ids at the end; a full replace clears the target
    collection and re-adds the given ids in order. *)
Definition apply_mutation (target : list Z) (mu : Mutation) : list Z :=
  match mu with
  | add_multiple_tracks_to_playlist track_ids _ => target ++ track_ids
  | set_tidal_playlist track_ids _ => track_ids
  end.

Definition apply_mutations (target : list Z) (calls : list Mutation) : list Z :=
  foldl apply_mutation target calls.

(** The state a first run starts from: empty caches, nothing done yet. *)
Definition initial_state : State :=
  {| track_match_cache := ∅; failure_cache := ∅; stdout := []; slept := [];
     requests := 0; playlist_calls := [] |}.

(** * Vocabulary of the statements *)

(** ** Concrete inputs *)

(** The text operations on pure ASCII strings. *)
Definition ascii_lower_char (c : ascii) : ascii :=
  let n := nat_of_ascii c in
  if ((65 <=? n)%nat && (n <=? 90)%nat)%bool then ascii_of_nat (n + 32) else c.

Fixpoint ascii_lower (s : string) : string :=
  match s with
  | EmptyString => EmptyString
  | String c s' => String (ascii_lower_char c) (ascii_lower s')
  end.

Fixpoint ascii_only (s : string) : string :=
  match s with
  | EmptyString => EmptyString
  | String c s' =>
      if (nat_of_ascii c <? 128)%nat then String c (ascii_only s') else ascii_only s'
  end.

Definition AsciiText : Unicode := {| lower := ascii_lower; normalize := ascii_only |}.

(** Concrete tracks on which statements are evaluated; a source track is the
    first track of an album by its artist. *)
Definition track_s (id name artist : string) (duration_ms : Z) (isrc : option string)
    : SpotifyTrack :=
  {| sp_id := Some id; sp_name := name; sp_artists := [ {| sa_name := artist |} ];
     sp_duration_ms := duration_ms;
     sp_album := Some {| sal_name := "Album"; sal_artists := Some [ {| sa_name := artist |} ] |};
     sp_track_number := 1;
     sp_isrc := Some <$> isrc |}.

Definition track_t (id : Z) (name artist : string) (duration : Z) (isrc : option string)
    (available : bool) : TidalTrack :=
  {| td_id := id; td_name := name; td_version := None;
     td_artists := [ {| ta_name := artist |} ]; td_duration := duration;
     td_isrc := isrc; td_available := available |}.

(** Two pages of two favorites each, newest first, the third item without a
    track. *)
Definition two_pages : SpotifySession :=
  {| current_user_saved_tracks := λ offset,
       if offset =? 0
       then {| pg_items := [Some (track_s "d" "D" "x" 1000 None);
                            Some (track_s "c" "C" "x" 1000 None)];
               pg_next := Some "https://api.spotify.com/v1/me/tracks?offset=2";
               pg_limit := 2; pg_total := 4 |}
       else if offset =? 2
       then {| pg_items := [None; Some (track_s "a" "A" "x" 1000 None)];
               pg_next := None; pg_limit := 2; pg_total := 4 |}
       else {| pg_items := []; pg_next := None; pg_limit := 2; pg_total := 4 |} |}.

Definition no_catalog : TidalSession :=
  {| search_albums := λ _ _, Ok []; search_tracks := λ _ _, Ok [];
     favorites_tracks := [] |}.

Definition any_ratio : Difflib := {| ratio := λ _ _, 1%Q |}.

(** A catalog that answers the first two requests with a rate-limit error,
    and one that never recovers. *)
Definition recovers_at_third (n : nat) (query : string) : Result (list TidalTrack) :=
  if (n <? 2)%nat then Raise TooManyRequests else Ok [].

Definition never_recovers (n : nat) (query : string) : Result (list TidalTrack) :=
  Raise (RequestException None).

Definition catalog_down : TidalSession :=
  {| search_albums := λ _ _, Ok []; search_tracks := never_recovers;
     favorites_tracks := [] |}.

(** Two source tracks with distinct ids that the cache maps to the same
    target id 7, after a track mapped to 5. *)
Definition dedup_state : State :=
  set_track_match_cache
    (λ _, {[ Some "s0" := 5; Some "s1" := 7; Some "s2" := 7 ]}) initial_state.

(** A catalog whose only candidate carries the source track's ISRC and is
    flagged unavailable. *)
Definition unavailable_candidate : TidalTrack :=
  track_t 9 "Song" "Band" 200 (Some "USABC1234567") false.

Definition only_unavailable : TidalSession :=
  {| search_albums := λ _ _, Ok []; search_tracks := λ _ _, Ok [unavailable_candidate];
     favorites_tracks := [] |}.

(** A catalog whose album search returns one album named "Album" by
    [tidal_track]'s artists, with [tidal_track] as the only track of its
    listing, and whose track search finds nothing. *)
Definition one_album (tidal_track : TidalTrack) : TidalSession :=
  {| search_albums := λ _ _,
       Ok [ {| tal_name := "Album"; tal_artists := td_artists tidal_track;
               tal_num_tracks := 1; tal_tracks := λ _, Ok [tidal_track] |} ];
     search_tracks := λ _ _, Ok [];
     favorites_tracks := [] |}.

(** A catalog whose album search returns one album by "Band" whose listing
    is refused with a rate-limit error. *)
Definition listing_down : TidalSession :=
  {| search_albums := λ _ _,
       Ok [ {| tal_name := "Album"; tal_artists := [ {| ta_name := "Band" |} ];
               tal_num_tracks := 1; tal_tracks := λ _, Raise TooManyRequests |} ];
     search_tracks := λ _ _, Ok [];
     favorites_tracks := [] |}.

(** One page of favorites with no further page. *)
Definition one_page (tracks : list SpotifyTrack) : SpotifySession :=
  {| current_user_saved_tracks := λ _,
       {| pg_items := Some <$> tracks; pg_next := None; pg_limit := 50;
          pg_total := Z.of_nat (length tracks) |} |}.

(** The catalog [catalog] for a user whose favorites are [favorites]. *)
Definition with_favorites (favorites : list TidalTrack) (catalog : TidalSession)
    : TidalSession :=
  {| search_albums := @search_albums catalog; search_tracks := @search_tracks catalog;
     favorites_tracks := favorites |}.

(** A catalog whose search returns one track. *)
Definition finds (tidal_track : TidalTrack) : TidalSession :=
  {| search_albums := λ _ _, Ok []; search_tracks := λ _ _, Ok [tidal_track];
     favorites_tracks := [] |}.

(** ** Predicates and reference functions *)

(** What the [except] branch of [repeat_on_request_error] prints before it
    either sleeps or gives up. *)
Definition retry_report (e : Exception) (remaining : nat) : list Event :=
  [match remaining with
   | O => CouldNotBeRecovered e
   | S _ => OccurredRetrying e remaining
   end]
  ++ match e with
     | RequestException (Some response) =>
         [ResponseMessage response; ResponseHeaders response]
     | _ => []
     end.

(** The sleeps of [k] consecutive retries that start with [remaining]
    retries left. *)
Fixpoint retry_sleeps (remaining k : nat) : list Z :=
  match k, remaining with
  | S k', S remaining' =>
      default 1 (sleep_schedule !! remaining) :: retry_sleeps remaining' k'
  | _, _ => []
  end.

(** A state that differs from [s] only in what was printed, slept and
    requested. *)
Definition only_waited (s s' : State) : Prop :=
  track_match_cache s' = track_match_cache s
  ∧ failure_cache s' = failure_cache s
  ∧ playlist_calls s' = playlist_calls s.

(** The [i]-th attempt counted from state [s] fails with a transient error. *)
Definition transient_at {A} (search : nat → string → Result A) (query : string)
    (s : State) (i : nat) : Prop :=
  ∃ e, search (requests s + i)%nat query = Raise e ∧ is_request_error e = true.

(** The target id the loop body of [get_tracks_for_new_tidal_playlist]
    reaches its inner [if] with, for a cache [m]. *)
Definition resolve (m : gmap (option string) Z) (spotify_track : SpotifyTrack) : option Z :=
  if str_truthy (sp_id spotify_track)
  then match m !! sp_id spotify_track with
       | Some tidal_id => if tidal_id =? 0 then None else Some tidal_id
       | None => None
       end
  else None.

(** The ids the loop appends to [output], and the lines it prints. *)
Fixpoint emitted (m : gmap (option string) Z) (l : list SpotifyTrack) (seen : gset Z)
    : list Z :=
  match l with
  | [] => []
  | st :: l' =>
      match resolve m st with
      | Some t => if decide (t ∈ seen) then emitted m l' seen
                  else t :: emitted m l' ({[t]} ∪ seen)
      | None => emitted m l' seen
      end
  end.

Fixpoint reported (m : gmap (option string) Z) (l : list SpotifyTrack) (seen : gset Z)
    : list Event :=
  match l with
  | [] => []
  | st :: l' =>
      match resolve m st with
      | Some t => if decide (t ∈ seen)
                  then DuplicateFound (sp_name st) (artist_names_of st ", ")
                       :: reported m l' seen
                  else reported m l' ({[t]} ∪ seen)
      | None => reported m l' seen
      end
  end.

(** The source tracks for which the loop prints a line. *)
Fixpoint repeated (m : gmap (option string) Z) (l : list SpotifyTrack) (seen : gset Z)
    : list SpotifyTrack :=
  match l with
  | [] => []
  | st :: l' =>
      match resolve m st with
      | Some t => if decide (t ∈ seen) then st :: repeated m l' seen
                  else repeated m l' ({[t]} ∪ seen)
      | None => repeated m l' seen
      end
  end.

(** [s'] differs from [s] in the Match Cache only. *)
Definition only_matches_changed (s s' : State) : Prop :=
  failure_cache s' = failure_cache s ∧ stdout s' = stdout s ∧ slept s' = slept s
  ∧ requests s' = requests s ∧ playlist_calls s' = playlist_calls s.

(** Every record of the cache [m] was either there in [s0] or pairs a
    source track with an available target track that matches it. *)
Definition paired_with_available {U : Unicode} (spotify_tracks_ : list SpotifyTrack)
    (tidal_tracks_ : list TidalTrack) (s0 : State) (m : gmap (option string) Z) : Prop :=
  ∀ source_id tidal_id, m !! source_id = Some tidal_id →
    track_match_cache s0 !! source_id = Some tidal_id
    ∨ ∃ tidal_track spotify_track,
        tidal_track ∈ tidal_tracks_ ∧ spotify_track ∈ spotify_tracks_
        ∧ td_id tidal_track = tidal_id ∧ sp_id spotify_track = source_id
        ∧ td_available tidal_track = true
        ∧ match_ tidal_track spotify_track = true.

Definition populate_inv {U : Unicode} (spotify_tracks_ : list SpotifyTrack)
    (tidal_tracks_ : list TidalTrack) (s0 s : State) : Prop :=
  only_matches_changed s0 s
  ∧ paired_with_available spotify_tracks_ tidal_tracks_ s0 (track_match_cache s).

(** ** Vocabulary of the further properties *)

(** [m] keeps the state predicate [I], whatever it returns or raises, and a
    value it returns satisfies [Q]. *)
Definition keeps {A} (I : State → Prop) (Q : A → Prop) (m : M A) : Prop :=
  ∀ s r s', I s → m s = (r, s') →
    I s' ∧ match r with Ok a => Q a | Raise _ => True end.

(** The test of the loop of [get_new_spotify_tracks], read against the
    caches of [s]. *)
Definition is_new (s : State) (spotify_track : SpotifyTrack) : bool :=
  str_truthy (sp_id spotify_track)
  && negb (tidal_id_truthy (track_match_cache s !! sp_id spotify_track))
  && negb (bool_decide (sp_id spotify_track ∈ failure_cache s)).

(** What a search for [spotify_track] may change: the failure record of that
    track and the request counter, by at most [n]. *)
Definition search_frame (spotify_track : SpotifyTrack) (n : nat) (s s' : State) : Prop :=
  track_match_cache s' = track_match_cache s
  ∧ (∀ k, k ≠ sp_id spotify_track → (k ∈ failure_cache s' ↔ k ∈ failure_cache s))
  ∧ stdout s' = stdout s ∧ slept s' = slept s ∧ playlist_calls s' = playlist_calls s
  ∧ (requests s ≤ requests s' ≤ requests s + n)%nat.

(** An album that an album search of the catalog returned, and a track the
    catalog returned: one of the tracks of a track search, or one of the
    listing of such an album. *)
Definition album_from_catalog {TS : TidalSession} (album : TidalAlbum) : Prop :=
  ∃ n query albums, search_albums n query = Ok albums ∧ album ∈ albums.

Definition from_catalog {TS : TidalSession} (tidal_track : TidalTrack) : Prop :=
  (∃ n query tracks, search_tracks n query = Ok tracks ∧ tidal_track ∈ tracks)
  ∨ (∃ album k tracks,
       album_from_catalog album ∧ tal_tracks album k = Ok tracks ∧ tidal_track ∈ tracks).

(** No album search of the catalog returns more than [bound] albums. *)
Definition albums_bounded {TS : TidalSession} (bound : nat) : Prop :=
  ∀ n query albums, search_albums n query = Ok albums → (length albums ≤ bound)%nat.

(** Where an exception of [tidal_search] comes from: the catalog raised it,
    in a search or in the listing of an album, or the source track has no
    artist or no positive track number. *)
Definition search_error_origin {TS : TidalSession} (spotify_track : SpotifyTrack)
    (e : Exception) : Prop :=
  (∃ n query, search_albums n query = Raise e)
  ∨ (∃ album k, album_from_catalog album ∧ tal_tracks album k = Raise e)
  ∨ (∃ n query, search_tracks n query = Raise e)
  ∨ (e = IndexError
     ∧ (sp_artists spotify_track = [] ∨ sp_track_number spotify_track ≤ 0)).

(** Every record of the two caches of [s] was there in [s0], or belongs to a
    source track of [spotify_tracks] that has an id; a new match record
    holds the id of a track that [match] confirms for the source track, and
    that track is an available one of [old_tidal_tracks] or one the catalog
    returned. *)
Definition confirmed_pairs {U : Unicode} {TS : TidalSession}
    (spotify_tracks : list SpotifyTrack) (old_tidal_tracks : list TidalTrack)
    (s0 s : State) : Prop :=
  (∀ source_id tidal_id, track_match_cache s !! source_id = Some tidal_id →
     track_match_cache s0 !! source_id = Some tidal_id
     ∨ ∃ spotify_track tidal_track,
         spotify_track ∈ spotify_tracks ∧ sp_id spotify_track = source_id
         ∧ str_truthy source_id = true
         ∧ td_id tidal_track = tidal_id
         ∧ match_ tidal_track spotify_track = true
         ∧ ((tidal_track ∈ old_tidal_tracks ∧ td_available tidal_track = true)
            ∨ from_catalog tidal_track))
  ∧ (∀ source_id, source_id ∈ failure_cache s →
       source_id ∈ failure_cache s0
       ∨ (str_truthy source_id = true
          ∧ ∃ spotify_track, spotify_track ∈ spotify_tracks
                             ∧ sp_id spotify_track = source_id)).

(** A track that a search returned for [spotify_track]: [match] confirms
    it and the catalog returned it. *)
Definition found_for {U : Unicode} {TS : TidalSession} (spotify_track : SpotifyTrack)
    (r : option TidalTrack) : Prop :=
  match r with
  | Some tidal_track =>
      match_ tidal_track spotify_track = true ∧ from_catalog tidal_track
  | None => True
  end.

(** What the search of one new track leaves in the failure cache. *)
Definition search_outcome {U : Unicode} {TS : TidalSession} (s' : State)
    (spotify_track : SpotifyTrack) (r : option TidalTrack) : Prop :=
  match r with
  | Some tidal_track =>
      match_ tidal_track spotify_track = true
      ∧ from_catalog tidal_track
      ∧ (sp_id spotify_track ∉ failure_cache s')
  | None => sp_id spotify_track ∈ failure_cache s'
  end.

(** * Properties *)

(** ** The identity matcher *)

Section MatcherFacts.
Context {U : Unicode}.

Lemma isrc_match_true t s :
  isrc_match t s = true ↔ sp_isrc s = Some (td_isrc t).
Proof.
  unfold isrc_match. destruct (sp_isrc s) as [i|]; [|done].
  rewrite bool_decide_eq_true. split; [by intros ->|by intros [= ->]].
Qed.


Lemma duration_match_true t s :
  duration_match t s = true ↔
  (Qabs (inject_Z (td_duration t) - inject_Z (sp_duration_ms s) / inject_Z 1000) < 2)%Q.
Proof.
  unfold duration_match, duration_match_tol. rewrite negb_true_iff.
  rewrite <- not_true_iff_false, Qle_bool_iff. split.
  - apply Qnot_le_lt.
  - apply Qlt_not_le.
Qed.

Lemma exclusion_rule_true pattern t s :
  exclusion_rule pattern t s = true ↔
  spotify_has_pattern pattern s ≠ tidal_has_pattern pattern t.
Proof.
  unfold exclusion_rule.
  destruct (spotify_has_pattern pattern s), (tidal_has_pattern pattern t); naive_solver.
Qed.


End MatcherFacts.

Example simple_ex1 : simple "Song Title - Remastered (Live) [2011]" = "Song Title".
Proof. reflexivity. Qed.
Example split_ex1 : Str.split "&" "Simon & Garfunkel" = ["Simon "; " Garfunkel"].
Proof. reflexivity. Qed.
Example split_ex2 : Str.split "feat." "a feat. b feat." = ["a "; " b "; ""].
Proof. reflexivity. Qed.
Example match_ex1 :
  match_ (U := AsciiText) (track_t 1 "Hello World" "Adele" 200 None true)
         (track_s "s1" "Hello World - Remastered" "ADELE" 201500 None) = true.
Proof. vm_compute. reflexivity. Qed.
Example match_ex2 :
  match_ (U := AsciiText) (track_t 1 "Hello World" "Adele" 200 None true)
         (track_s "s1" "Hello World" "Bob, adele & X" 201500 None) = false.
Proof. vm_compute. reflexivity. Qed.

(** C3, as the specification states it, fails for a source track without an
    identifier: [match] returns [False] before it looks at the ISRC codes. *)
Lemma isrc_equal_without_id_no_match :
  let s := {| sp_id := None; sp_name := "Song"; sp_artists := [ {| sa_name := "Band" |} ];
              sp_duration_ms := 200000;
              sp_album := Some {| sal_name := "Album";
                                  sal_artists := Some [ {| sa_name := "Band" |} ] |};
              sp_track_number := 1;
              sp_isrc := Some (Some "USABC1234567") |} in
  let t := track_t 7 "Song" "Band" 200 (Some "USABC1234567") true in
  sp_isrc s = Some (Some "USABC1234567")
  ∧ td_isrc t = Some "USABC1234567"
  ∧ match_ (U := AsciiText) t s = false.
Proof. vm_compute. repeat split. Qed.

(** C3 (amended): for every source track whose ISRC is present and equal
    to the candidate's, whatever the names, durations and artists are,
    [match] returns true when the source track has an identifier, and false
    when it has none. *)
Theorem isrc_equal_matches {U : Unicode} (t : TidalTrack) (s : SpotifyTrack) (isrc : string) :
  sp_isrc s = Some (Some isrc) →
  td_isrc t = Some isrc →
  match_ t s = str_truthy (sp_id s).
Proof.
  intros Hs Ht. unfold match_.
  destruct (str_truthy (sp_id s)); simpl; [|done].
  apply orb_true_iff. left. apply isrc_match_true. by rewrite Hs, Ht.
Qed.

Lemma isrc_equal_matches_witness :
  match_ (U := AsciiText)
    (track_t 7 "Completely Different" "Nobody" 10 (Some "USABC1234567") true)
    (track_s "s1" "Song" "Band" 200000 (Some "USABC1234567")) = true.
Proof.
  rewrite (isrc_equal_matches (U := AsciiText) _ _ "USABC1234567"); reflexivity.
Defined.







(** ** Running the monad *)

Lemma bind_ok {A B} (m : M A) (f : A → M B) (s s' : State) (a : A) :
  m s = (Ok a, s') → (m ≫= f) s = f a s'.
Proof. unfold mbind, M_bind. by intros ->. Qed.

Lemma bind_raise {A B} (m : M A) (f : A → M B) (s s' : State) (e : Exception) :
  m s = (Raise e, s') → (m ≫= f) s = (Raise e, s').
Proof. unfold mbind, M_bind. by intros ->. Qed.

Lemma bind_mret {A B} (a : A) (f : A → M B) (s : State) : (mret a ≫= f) s = f a s.
Proof. reflexivity. Qed.

Lemma bind_get {B} (k : option string) (f : option Z → M B) (s : State) :
  (MatchCache.get k ≫= f) s = f (track_match_cache s !! k) s.
Proof. reflexivity. Qed.

Lemma bind_insert {B} (k : option string) (v : Z) (f : () → M B) (s : State) :
  (MatchCache.insert (k, v) ≫= f) s = f () (set_track_match_cache (<[k := v]>) s).
Proof. reflexivity. Qed.

Lemma bind_has_match_failure {B} (k : option string) (f : bool → M B) (s : State) :
  (FailureCache.has_match_failure k ≫= f) s = f (bool_decide (k ∈ failure_cache s)) s.
Proof. reflexivity. Qed.

Lemma bind_print {B} (ev : Event) (f : () → M B) (s : State) :
  (print ev ≫= f) s = f () (add_stdout [ev] s).
Proof. reflexivity. Qed.

Lemma mapM'_app_raise {A B} (f : A → M B) (l1 l2 : list A) (x : A) (ys : list B)
    (s s1 s2 : State) (e : Exception) :
  mapM' f l1 s = (Ok ys, s1) →
  f x s1 = (Raise e, s2) →
  mapM' f (l1 ++ x :: l2) s = (Raise e, s2).
Proof.
  revert ys s. induction l1 as [|a l1 IH]; intros ys s Hl1 Hx; simpl in *.
  - injection Hl1 as <- <-. by erewrite bind_raise.
  - destruct (f a s) as [[b|e'] sa] eqn:Hfa.
    + erewrite bind_ok in Hl1 by exact Hfa.
      destruct (mapM' f l1 sa) as [[bs|e''] sb] eqn:Hrec.
      * erewrite bind_ok in Hl1 by exact Hrec. injection Hl1 as <- <-.
        erewrite bind_ok by exact Hfa. erewrite bind_raise; [done|]. by eapply IH.
      * erewrite bind_raise in Hl1 by exact Hrec. discriminate.
    + erewrite bind_raise in Hl1 by exact Hfa. discriminate.
Qed.

(** ** The playlist diff *)

Lemma take_length_prefix {A} (l1 l2 : list A) :
  take (length l1) l2 = l1 ↔ l1 `prefix_of` l2.
Proof.
  split.
  - intros Htake. exists (drop (length l1) l2).
    rewrite <- Htake at 1. by rewrite take_drop.
  - intros [k ->]. by rewrite take_app_length.
Qed.

(** C4: the updater issues no mutation when the new id sequence equals the
    old one, appends exactly the suffix [newIds[len(oldIds):]] when the old
    sequence is a proper prefix of the new one, and otherwise replaces the
    target by the new sequence. *)
Theorem update_tidal_playlist_decision (old_tidal_tracks : list TidalTrack)
    (new_tidal_tracks : list (option TidalTrack)) (sync_favorites : bool) (s : State) :
  let oldIds := map td_id old_tidal_tracks in
  let newIds := map td_id (omap id new_tidal_tracks) in
  let run := update_tidal_playlist old_tidal_tracks new_tidal_tracks sync_favorites s in
  (newIds = oldIds →
     run = (Ok (), add_stdout [NoChangesToWrite] s)
     ∧ playlist_calls run.2 = playlist_calls s)
  ∧ (newIds ≠ oldIds → oldIds `prefix_of` newIds →
     run = (Ok (), add_playlist_calls
                     [add_multiple_tracks_to_playlist (drop (length oldIds) newIds)
                                                      sync_favorites] s)
     ∧ oldIds ++ drop (length oldIds) newIds = newIds)
  ∧ (¬ oldIds `prefix_of` newIds →
     run = (Ok (), add_playlist_calls [set_tidal_playlist newIds sync_favorites] s)).
Proof.
  intros oldIds newIds run. subst run. unfold update_tidal_playlist.
  fold oldIds newIds. split; [|split].
  - intros Heq. by rewrite bool_decide_eq_true_2.
  - intros Hne Hpre. split.
    + rewrite bool_decide_eq_false_2 by done.
      by rewrite bool_decide_eq_true_2 by by apply take_length_prefix.
    + destruct Hpre as [k Hk]. rewrite Hk. by rewrite drop_app_length.
  - intros Hpre. rewrite bool_decide_eq_false_2.
    + rewrite bool_decide_eq_false_2; [done|]. by rewrite take_length_prefix.
    + intros Heq. apply Hpre. by rewrite Heq.
Qed.

(** The three cases of the specification's "diff correctness" example, with
    [a, b, c, d] = [1, 2, 3, 4]. *)
Lemma update_tidal_playlist_decision_witness :
  let tr i := track_t i "t" "a" 100 None true in
  playlist_calls
    (update_tidal_playlist [tr 1; tr 2; tr 3] [Some (tr 1); Some (tr 2); Some (tr 3); Some (tr 4)]
       false initial_state).2
  = [add_multiple_tracks_to_playlist [4] false]
  ∧ playlist_calls
      (update_tidal_playlist [tr 1; tr 2; tr 3] [Some (tr 1); Some (tr 3); Some (tr 2)]
         false initial_state).2
    = [set_tidal_playlist [1; 3; 2] false]
  ∧ playlist_calls
      (update_tidal_playlist [tr 1; tr 2] [Some (tr 1); None; Some (tr 2)]
         false initial_state).2
    = [].
Proof.
  intros tr. split; [|split].
  - destruct (update_tidal_playlist_decision [tr 1; tr 2; tr 3]
                [Some (tr 1); Some (tr 2); Some (tr 3); Some (tr 4)] false initial_state)
      as (_ & Happend & _).
    destruct Happend as [-> _]; [discriminate | by exists [4] | reflexivity].
  - destruct (update_tidal_playlist_decision [tr 1; tr 2; tr 3]
                [Some (tr 1); Some (tr 3); Some (tr 2)] false initial_state)
      as (_ & _ & Hreplace).
    rewrite Hreplace; [reflexivity|].
    intros [k Hk]. discriminate Hk.
  - destruct (update_tidal_playlist_decision [tr 1; tr 2]
                [Some (tr 1); None; Some (tr 2)] false initial_state)
      as (Hsame & _).
    destruct Hsame as [_ ->]; reflexivity.
Defined.

(** ** Fetching the favorites *)

(** [get_tracks_from_spotify_favorites] returns the tracks of all fetched
    pages, concatenated in fetch order and then reversed (items without a
    track are left out), so the track the collaborator lists last comes
    first; this reversed sequence is the source sequence of a favorites
    sync. *)
Lemma get_tracks_from_spotify_favorites_reversed {U : Unicode} {D : Difflib} {TS : TidalSession}
    {SS : SpotifySession} (s : State) :
  let first := current_user_saved_tracks 0 in
  let offsets :=
    if str_truthy (pg_next first)
    then map (λ n, pg_limit first * n)
             (seqZ 1 (ceil_div (pg_total first) (pg_limit first) - 1))
    else [] in
  let pages := first :: map current_user_saved_tracks offsets in
  let fetched := concat (map page_tracks pages) in
  (str_truthy (pg_next first) = true → pg_limit first ≠ 0) →
  get_tracks_from_spotify_favorites s
    = (Ok (reverse fetched), add_stdout [LoadingFavorites] s)
  ∧ (∀ i track, fetched !! i = Some track →
       reverse fetched !! (length fetched - 1 - i)%nat = Some track)
  ∧ sync_favorites s
    = sync_tracks (reverse fetched) favorites_tracks true (add_stdout [LoadingFavorites] s).
Proof.
  intros first offsets pages fetched Hlimit.
  assert (_fetch_all_from_spotify_in_chunks current_user_saved_tracks
            (add_stdout [LoadingFavorites] s)
          = (Ok fetched, add_stdout [LoadingFavorites] s)) as Hfetch.
  { unfold _fetch_all_from_spotify_in_chunks. fold first.
    subst fetched pages offsets. simpl.
    destruct (str_truthy (pg_next first)) eqn:Hnext.
    - specialize (Hlimit eq_refl). apply Z.eqb_neq in Hlimit. by rewrite Hlimit.
    - simpl. by rewrite app_nil_r. }
  assert (get_tracks_from_spotify_favorites s
          = (Ok (reverse fetched), add_stdout [LoadingFavorites] s)) as Hget.
  { unfold get_tracks_from_spotify_favorites.
    erewrite bind_ok by reflexivity. by erewrite bind_ok by exact Hfetch. }
  split; [exact Hget|]. split.
  - intros i track Hi.
    assert (i < length fetched)%nat as Hlt by by eapply lookup_lt_Some.
    rewrite reverse_lookup by lia.
    replace (length fetched - S (length fetched - 1 - i))%nat with i by lia. done.
  - unfold sync_favorites. by erewrite bind_ok by exact Hget.
Qed.

(** C10 at its failing input.  The collaborator lists the favorites newest
    first, [newer; older]; [get_tracks_from_spotify_favorites] returns them
    reversed, oldest first, and after the sync the Match Cache resolves them
    to the ids [1; 2], the target ordering the claim states.  The target's
    favorites hold the track with id 1, which matches [older]; the search
    finds the track with id 2 for [newer].  [sync_tracks] hands the updater
    the search result of the new favorite only, so the one mutation replaces
    the favorites by [2]: the oldest favorite is gone and the final target
    ordering is not oldest-to-newest. *)
Theorem favorites_sync_loses_oldest_favorite {U : Unicode} {D : Difflib} :
  let older := track_s "s1" "First" "Band" 200000 (Some "USABC1234567") in
  let newer := track_s "s2" "Second" "Band" 180000 (Some "GBXYZ7654321") in
  let t1 := track_t 1 "First" "Band" 200 (Some "USABC1234567") true in
  let t2 := track_t 2 "Second" "Band" 180 (Some "GBXYZ7654321") true in
  let spotify := one_page [newer; older] in
  let tidal := with_favorites [t1] (finds t2) in
  let run := sync_favorites (TS := tidal) (SS := spotify) initial_state in
  (get_tracks_from_spotify_favorites (SS := spotify) initial_state).1
  = Ok [older; newer]
  ∧ run.1 = Ok ()
  ∧ (get_tracks_for_new_tidal_playlist [older; newer] run.2).1 = Ok [1; 2]
  ∧ playlist_calls run.2 = [set_tidal_playlist [2] true]
  ∧ apply_mutations [1] (playlist_calls run.2) = [2].
Proof.
  intros older newer t1 t2 spotify tidal run.
  assert (run = (Ok (),
            {| track_match_cache := <[Some "s2" := 2]> (<[Some "s1" := 1]> ∅);
               failure_cache := ∅ ∖ {[Some "s2"]}; stdout := [LoadingFavorites];
               slept := []; requests := 2;
               playlist_calls := [set_tidal_playlist [2] true] |}))
    as Hrun by reflexivity.
  rewrite Hrun. repeat split.
Qed.

(** ** Retry and backoff *)

Lemma add_stdout_add_stdout evs1 evs2 s :
  add_stdout evs2 (add_stdout evs1 s) = add_stdout (evs1 ++ evs2) s.
Proof. unfold add_stdout. simpl. by rewrite <- app_assoc. Qed.

Lemma add_stdout_nil s : add_stdout [] s = s.
Proof. destruct s. unfold add_stdout. simpl. by rewrite app_nil_r. Qed.

Section Retry.
Context {A : Type} (function : M A).

Lemma repeat_on_request_error_returns remaining s s1 v :
  function s = (Ok v, s1) →
  repeat_on_request_error function remaining s = (Ok v, s1).
Proof. intros Hf. destruct remaining; simpl; unfold try_except; by rewrite Hf. Qed.

Lemma repeat_on_request_error_other remaining s s1 e :
  function s = (Raise e, s1) → is_request_error e = false →
  repeat_on_request_error function remaining s = (Raise e, s1).
Proof.
  intros Hf He. destruct remaining; simpl; unfold try_except; by rewrite Hf, He.
Qed.

Lemma repeat_on_request_error_retries remaining s s1 e :
  function s = (Raise e, s1) → is_request_error e = true →
  repeat_on_request_error function (S remaining) s
  = repeat_on_request_error function remaining
      (add_slept [default 1 (sleep_schedule !! S remaining)]
         (add_stdout (retry_report e (S remaining)) s1)).
Proof.
  intros Hf He. simpl. unfold try_except. rewrite Hf, He.
  destruct e as [|[response|]| | | |]; try discriminate;
    unfold mbind, M_bind, mret, M_ret, print, time_sleep, sys_exit, raise;
    rewrite ?add_stdout_add_stdout; reflexivity.
Qed.

Lemma repeat_on_request_error_exhausted s s1 e :
  function s = (Raise e, s1) → is_request_error e = true →
  repeat_on_request_error function 0 s
  = (Raise (SystemExit 1),
     add_stdout (retry_report e 0 ++ [AbortingSync; ArgumentsProvided; Traceback]) s1).
Proof.
  intros Hf He. simpl. unfold try_except. rewrite Hf, He.
  destruct e as [|[response|]| | | |]; try discriminate;
    unfold mbind, M_bind, mret, M_ret, print, time_sleep, sys_exit, raise;
    rewrite ?add_stdout_add_stdout; reflexivity.
Qed.

End Retry.

Section RetryOfRequest.
Context {A : Type} (search : nat → string → Result A) (query : string).

Lemma retry_then_return (k remaining : nat) (s : State) (v : A) :
  (k ≤ remaining)%nat →
  (∀ i, (i < k)%nat → transient_at search query s i) →
  search (requests s + k)%nat query = Ok v →
  ∃ s', repeat_on_request_error (request search query) remaining s = (Ok v, s')
        ∧ slept s' = slept s ++ retry_sleeps remaining k
        ∧ requests s' = (requests s + k + 1)%nat
        ∧ only_waited s s'.
Proof.
  revert remaining s. induction k as [|k IH]; intros remaining s Hle Hfail Hok.
  - exists (add_requests 1 s). split; [|split; [|split]].
    + apply repeat_on_request_error_returns. unfold request.
      by rewrite Nat.add_0_r in Hok; rewrite Hok.
    + destruct remaining; simpl; by rewrite app_nil_r.
    + simpl. lia.
    + done.
  - destruct remaining as [|remaining]; [lia|].
    destruct (Hfail 0%nat) as (e & He & Htr); [lia|].
    rewrite Nat.add_0_r in He.
    erewrite repeat_on_request_error_retries; [|unfold request; by rewrite He|done].
    set (s1 := add_slept _ _).
    destruct (IH remaining s1) as (s' & Hrun & Hslept & Hreq & Hc1 & Hc2 & Hc3).
    + lia.
    + intros i Hi. destruct (Hfail (S i)) as (e' & He' & Htr'); [lia|].
      exists e'. split; [|done]. subst s1. simpl.
      by replace (S (requests s + i)) with (requests s + S i)%nat by lia.
    + subst s1. simpl.
      by replace (S (requests s + k)) with (requests s + S k)%nat by lia.
    + exists s'. split; [done|]. split; [|split].
      * rewrite Hslept. subst s1. simpl. by rewrite <- app_assoc.
      * rewrite Hreq. subst s1. simpl. lia.
      * done.
Qed.

Lemma retry_then_exit (remaining : nat) (s : State) :
  (∀ i, (i ≤ remaining)%nat → transient_at search query s i) →
  ∃ s' evs, repeat_on_request_error (request search query) remaining s
            = (Raise (SystemExit 1), s')
        ∧ slept s' = slept s ++ retry_sleeps remaining remaining
        ∧ requests s' = (requests s + remaining + 1)%nat
        ∧ stdout s' = stdout s ++ evs ++ [AbortingSync; ArgumentsProvided; Traceback]
        ∧ only_waited s s'.
Proof.
  revert s. induction remaining as [|remaining IH]; intros s Hfail.
  - destruct (Hfail 0%nat) as (e & He & Htr); [lia|].
    rewrite Nat.add_0_r in He.
    eexists _, (retry_report e 0).
    split; [apply repeat_on_request_error_exhausted; [unfold request; by rewrite He|done]|].
    repeat split; simpl; rewrite ?app_nil_r, <- ?app_assoc; try done; lia.
  - destruct (Hfail 0%nat) as (e & He & Htr); [lia|].
    rewrite Nat.add_0_r in He.
    erewrite repeat_on_request_error_retries; [|unfold request; by rewrite He|done].
    set (s1 := add_slept _ _).
    destruct (IH s1) as (s' & evs & Hrun & Hslept & Hreq & Hout & Hc1 & Hc2 & Hc3).
    + intros i Hi. destruct (Hfail (S i)) as (e' & He' & Htr'); [lia|].
      exists e'. split; [|done]. subst s1. simpl.
      by replace (S (requests s + i)) with (requests s + S i)%nat by lia.
    + exists s', (retry_report e (S remaining) ++ evs).
      split; [done|]. repeat split.
      * rewrite Hslept. subst s1. simpl. by rewrite <- app_assoc.
      * rewrite Hreq. subst s1. simpl. lia.
      * rewrite Hout. subst s1. simpl. by rewrite <- !app_assoc.
      * done.
      * done.
      * done.
Qed.

End RetryOfRequest.

Lemma sync_tracks_exit_propagates {U : Unicode} {D : Difflib} {TS : TidalSession}
    (spotify_tracks new1 new2 : list SpotifyTrack) (t : SpotifyTrack)
    (old_tidal_tracks : list TidalTrack) (sync_favorites : bool)
    (results : list (option TidalTrack)) (s0 s1 s2 s3 : State) (e : Exception) :
  get_new_spotify_tracks spotify_tracks old_tidal_tracks s0 = (Ok (new1 ++ t :: new2), s1) →
  mapM' (λ t, repeat_on_request_error (tidal_search t) 5) new1 s1 = (Ok results, s2) →
  repeat_on_request_error (tidal_search t) 5 s2 = (Raise e, s3) →
  sync_tracks spotify_tracks old_tidal_tracks sync_favorites s0 = (Raise e, s3).
Proof.
  intros Hnew Hbefore Hexit. unfold sync_tracks.
  erewrite bind_ok by exact Hnew.
  assert (search_new_tracks_on_tidal (new1 ++ t :: new2) s1 = (Raise e, s3)) as Hsearch.
  { unfold search_new_tracks_on_tidal. erewrite bind_raise; [done|].
    by eapply mapM'_app_raise. }
  destruct new1; simpl; by erewrite bind_raise.
Qed.

(** C5: a search attempt that fails with a transient error (rate limit or
    transport) is retried up to 5 times, sleeping 1, 10, 60, 300 and 600
    seconds before the 1st to 5th retry; when the 5th retry fails too, the
    wrapper calls [sys.exit(1)], and that exit ends [sync_tracks] as a whole
    instead of skipping the track. *)
Theorem retry_five_times_then_exit {U : Unicode} {D : Difflib} {TS : TidalSession}
    {A : Type} (search : nat → string → Result A) (query : string) (s : State) :
  let function := request search query in
  (∀ k v, (k ≤ 5)%nat →
     (∀ i, (i < k)%nat → transient_at search query s i) →
     search (requests s + k)%nat query = Ok v →
     ∃ s', repeat_on_request_error function 5 s = (Ok v, s')
           ∧ slept s' = slept s ++ take k [1; 10; 60; 300; 600]
           ∧ requests s' = (requests s + k + 1)%nat
           ∧ only_waited s s')
  ∧ ((∀ i, (i ≤ 5)%nat → transient_at search query s i) →
     ∃ s' evs, repeat_on_request_error function 5 s = (Raise (SystemExit 1), s')
           ∧ slept s' = slept s ++ [1; 10; 60; 300; 600]
           ∧ requests s' = (requests s + 6)%nat
           ∧ stdout s' = stdout s ++ evs ++ [AbortingSync; ArgumentsProvided; Traceback]
           ∧ only_waited s s')
  ∧ (∀ spotify_tracks new1 t new2 old_tidal_tracks sync_favorites results s0 s1 s2 s3 code,
       get_new_spotify_tracks spotify_tracks old_tidal_tracks s0
         = (Ok (new1 ++ t :: new2), s1) →
       mapM' (λ t, repeat_on_request_error (tidal_search t) 5) new1 s1 = (Ok results, s2) →
       repeat_on_request_error (tidal_search t) 5 s2 = (Raise (SystemExit code), s3) →
       sync_tracks spotify_tracks old_tidal_tracks sync_favorites s0
         = (Raise (SystemExit code), s3)).
Proof.
  intros function. split; [|split].
  - intros k v Hk Hfail Hok.
    destruct (retry_then_return search query k 5 s v Hk Hfail Hok)
      as (s' & Hrun & Hslept & Hreq & Hsame).
    exists s'. split; [done|]. split; [|done].
    rewrite Hslept. f_equal.
    do 6 (destruct k as [|k]; [reflexivity|]). lia.
  - intros Hfail.
    destruct (retry_then_exit search query 5 s Hfail)
      as (s' & evs & Hrun & Hslept & Hreq & Hout & Hsame).
    exists s', evs. split; [done|]. split; [done|]. split; [lia|done].
  - intros. by eapply sync_tracks_exit_propagates.
Qed.

Lemma retry_five_times_then_exit_witness :
  (∃ s', repeat_on_request_error (request recovers_at_third "q") 5 initial_state
         = (Ok [], s')
         ∧ slept s' = [1; 10] ∧ requests s' = 3%nat)
  ∧ (∃ s', repeat_on_request_error (request never_recovers "q") 5 initial_state
           = (Raise (SystemExit 1), s')
           ∧ slept s' = [1; 10; 60; 300; 600] ∧ requests s' = 6%nat)
  ∧ (∃ s', sync_tracks (U := AsciiText) (D := any_ratio) (TS := catalog_down)
             [track_s "s1" "Song" "Band" 200000 None] [] false initial_state
           = (Raise (SystemExit 1), s')
           ∧ slept s' = [1; 10; 60; 300; 600] ∧ requests s' = 12%nat
           ∧ playlist_calls s' = [] ∧ failure_cache s' = ∅).
Proof.
  split; [|split].
  - destruct (retry_five_times_then_exit (U := AsciiText) (D := any_ratio)
                (TS := no_catalog) recovers_at_third "q" initial_state)
      as (Hreturn & _ & _).
    destruct (Hreturn 2%nat [] ltac:(lia)) as (s' & Hrun & Hslept & Hreq & _).
    + intros i Hi. exists TooManyRequests. split; [|reflexivity].
      unfold recovers_at_third. simpl.
      destruct i as [|[|i]]; [reflexivity | reflexivity | lia].
    + reflexivity.
    + exists s'. split; [exact Hrun|]. split; [exact Hslept | exact Hreq].
  - destruct (retry_five_times_then_exit (U := AsciiText) (D := any_ratio)
                (TS := no_catalog) never_recovers "q" initial_state)
      as (_ & Hexit & _).
    destruct Hexit as (s' & evs & Hrun & Hslept & Hreq & _).
    + intros i _. exists (RequestException None). split; reflexivity.
    + exists s'. split; [exact Hrun|]. split; [exact Hslept | exact Hreq].
  - destruct (retry_five_times_then_exit (U := AsciiText) (D := any_ratio)
                (TS := catalog_down) never_recovers "q" initial_state)
      as (_ & _ & Hrun).
    eexists. split.
    + eapply (Hrun _ [] _ [] _ _ [] initial_state initial_state initial_state);
        reflexivity.
    + repeat split.
Defined.

(** ** Deduplication of the target ids *)

Lemma union_swap (X Y W : gset Z) : X ∪ (Y ∪ W) = Y ∪ X ∪ W.
Proof. set_solver. Qed.

Section Dedup.
Variable m : gmap (option string) Z.

Lemma get_tracks_for_new_tidal_playlist_loop_spec l output seen s :
  track_match_cache s = m →
  get_tracks_for_new_tidal_playlist_loop l output seen s
  = (Ok (output ++ emitted m l seen), add_stdout (reported m l seen) s).
Proof.
  revert output seen s. induction l as [|st l IH]; intros output seen s Hm; simpl.
  - by rewrite app_nil_r, add_stdout_nil.
  - unfold resolve. destruct (str_truthy (sp_id st)); simpl; [|by apply IH].
    rewrite bind_get, Hm.
    destruct (m !! sp_id st) as [t|]; [|by apply IH].
    destruct (t =? 0); simpl; [by apply IH|].
    destruct (decide (t ∈ seen)) as [Hin|Hin].
    + rewrite bool_decide_eq_true_2 by done.
      rewrite bind_print, IH by done. by rewrite add_stdout_add_stdout.
    + rewrite bool_decide_eq_false_2 by done.
      rewrite IH by done. by rewrite <- app_assoc.
Qed.

Lemma emitted_app l1 l2 seen :
  emitted m (l1 ++ l2) seen
  = emitted m l1 seen ++ emitted m l2 (list_to_set (emitted m l1 seen) ∪ seen).
Proof.
  revert seen. induction l1 as [|st l1 IH]; intros seen; simpl.
  - by rewrite (left_id_L ∅ (∪)).
  - destruct (resolve m st) as [t|]; [|done].
    destruct (decide (t ∈ seen)); [done|].
    simpl. rewrite IH. by rewrite union_swap.
Qed.

Lemma reported_app l1 l2 seen :
  reported m (l1 ++ l2) seen
  = reported m l1 seen ++ reported m l2 (list_to_set (emitted m l1 seen) ∪ seen).
Proof.
  revert seen. induction l1 as [|st l1 IH]; intros seen; simpl.
  - by rewrite (left_id_L ∅ (∪)).
  - destruct (resolve m st) as [t|]; [|done].
    destruct (decide (t ∈ seen)); simpl; [by rewrite IH|].
    rewrite IH. by rewrite union_swap.
Qed.

Lemma emitted_not_seen l seen t : t ∈ seen → t ∉ emitted m l seen.
Proof.
  revert seen. induction l as [|st l IH]; intros seen Hin; simpl; [set_solver|].
  destruct (resolve m st) as [t'|]; [|by apply IH].
  destruct (decide (t' ∈ seen)); [by apply IH|].
  apply not_elem_of_cons. split; [set_solver|]. apply IH. set_solver.
Qed.

Lemma emitted_unresolved l seen t :
  (∀ st, st ∈ l → resolve m st ≠ Some t) → t ∉ emitted m l seen.
Proof.
  revert seen. induction l as [|st l IH]; intros seen Hl; simpl; [set_solver|].
  assert (∀ st', st' ∈ l → resolve m st' ≠ Some t) as Hl' by (intros; apply Hl; set_solver).
  destruct (resolve m st) as [t'|] eqn:Hst; [|by apply IH].
  destruct (decide (t' ∈ seen)); [by apply IH|].
  apply not_elem_of_cons. split; [|by apply IH].
  intros ->. by apply (Hl st); [set_solver|].
Qed.

End Dedup.

(** C8: when two tracks of the source sequence resolve through the Match
    Cache to the same target id [t] (each has an id, and the cached id passes
    the test [if tidal_id:]), [a] being the first track that does and [b] a
    later one, the id list contains [t] exactly once, right after the ids
    emitted for the tracks before [a], and processing [b] prints the
    duplicate report for [b]. *)
Theorem duplicate_target_emitted_once (l1 l2 l3 : list SpotifyTrack)
    (a b : SpotifyTrack) (t : Z) (s : State) :
  str_truthy (sp_id a) = true → track_match_cache s !! sp_id a = Some t →
  str_truthy (sp_id b) = true → track_match_cache s !! sp_id b = Some t →
  t ≠ 0 →
  (∀ st, st ∈ l1 → str_truthy (sp_id st) = true →
         track_match_cache s !! sp_id st ≠ Some t) →
  ∃ out1 rest evs1 evs2,
    (get_tracks_for_new_tidal_playlist l1 s).1 = Ok out1
    ∧ (get_tracks_for_new_tidal_playlist (l1 ++ a :: l2) s).2 = add_stdout evs1 s
    ∧ get_tracks_for_new_tidal_playlist (l1 ++ a :: l2 ++ b :: l3) s
      = (Ok (out1 ++ t :: rest),
         add_stdout (evs1 ++ DuplicateFound (sp_name b) (artist_names_of b ", ") :: evs2) s)
    ∧ (t ∉ out1) ∧ (t ∉ rest).
Proof.
  intros Ha Hat Hb Hbt Ht Hfirst.
  set (m := track_match_cache s).
  assert ((t =? 0) = false) as Ht0 by by apply Z.eqb_neq.
  assert (resolve m a = Some t) as Hra.
  { unfold resolve. by rewrite Ha; subst m; rewrite Hat, Ht0. }
  assert (resolve m b = Some t) as Hrb.
  { unfold resolve. by rewrite Hb; subst m; rewrite Hbt, Ht0. }
  assert (∀ st, st ∈ l1 → resolve m st ≠ Some t) as Hl1.
  { intros st Hst. unfold resolve.
    destruct (str_truthy (sp_id st)) eqn:Hid; [|done].
    specialize (Hfirst st Hst Hid). subst m.
    destruct (track_match_cache s !! sp_id st) as [t'|]; [|done].
    destruct (t' =? 0); [done|]. congruence. }
  assert (t ∉ emitted m l1 ∅) as Hout1 by by apply emitted_unresolved.
  set (seen1 := list_to_set (emitted m l1 ∅) ∪ (∅ : gset Z)).
  assert (t ∉ seen1) as Hseen1 by (subst seen1; set_solver).
  set (seen2 := list_to_set (emitted m (l1 ++ a :: l2) ∅) ∪ (∅ : gset Z)).
  assert (t ∈ seen2) as Hseen2.
  { subst seen2. rewrite emitted_app. fold seen1. simpl. rewrite Hra.
    destruct (decide (t ∈ seen1)); [done|]. set_solver. }
  exists (emitted m l1 ∅), (emitted m (l2 ++ b :: l3) ({[t]} ∪ seen1)),
         (reported m (l1 ++ a :: l2) ∅), (reported m l3 seen2).
  unfold get_tracks_for_new_tidal_playlist.
  rewrite !(get_tracks_for_new_tidal_playlist_loop_spec m) by done. simpl.
  split; [done|]. split; [done|]. split; [|split; [done|]].
  - f_equal.
    + f_equal. rewrite emitted_app. fold seen1. simpl. rewrite Hra.
      by destruct (decide (t ∈ seen1)).
    + f_equal.
      replace (l1 ++ a :: l2 ++ b :: l3) with ((l1 ++ a :: l2) ++ b :: l3)
        by by rewrite <- app_assoc.
      rewrite reported_app. fold seen2. simpl. rewrite Hrb.
      by destruct (decide (t ∈ seen2)).
  - apply emitted_not_seen. set_solver.
Qed.

Lemma duplicate_target_emitted_once_witness :
  let l1 := [track_s "s0" "Zero" "x" 1000 None] in
  let a := track_s "s1" "One" "x" 1000 None in
  let b := track_s "s2" "One (single)" "y" 1000 None in
  get_tracks_for_new_tidal_playlist (l1 ++ [a; b]) dedup_state
  = (Ok [5; 7], add_stdout [DuplicateFound "One (single)" "y"] dedup_state)
  ∧ ∃ out1 rest evs1 evs2,
      (get_tracks_for_new_tidal_playlist l1 dedup_state).1 = Ok out1
      ∧ (get_tracks_for_new_tidal_playlist (l1 ++ [a]) dedup_state).2
        = add_stdout evs1 dedup_state
      ∧ get_tracks_for_new_tidal_playlist (l1 ++ [a; b]) dedup_state
        = (Ok (out1 ++ 7 :: rest),
           add_stdout (evs1 ++ DuplicateFound (sp_name b) (artist_names_of b ", ") :: evs2)
                      dedup_state)
      ∧ (7 ∉ out1) ∧ (7 ∉ rest).
Proof.
  intros l1 a b. split; [vm_compute; reflexivity|].
  apply (duplicate_target_emitted_once l1 [] [] a b 7 dedup_state).
  - reflexivity.
  - reflexivity.
  - reflexivity.
  - reflexivity.
  - lia.
  - intros st Hst _. apply list_elem_of_singleton in Hst as ->. vm_compute. discriminate.
Defined.

(** ** Pre-population of the Match Cache *)

Lemma foldM_invariant {A B} (f : B → A → M B) (P : State → Prop) (Q : B → Prop)
    (l : list A) :
  (∀ b x s, x ∈ l → Q b → P s → ∃ b' s', f b x s = (Ok b', s') ∧ P s' ∧ Q b') →
  ∀ b s, Q b → P s → ∃ b' s', foldM f l b s = (Ok b', s') ∧ P s' ∧ Q b'.
Proof.
  induction l as [|x l IH]; intros Hf b s HQ HP; simpl.
  - by exists b, s.
  - destruct (Hf b x s) as (b1 & s1 & Hrun & HP1 & HQ1);
      [apply list_elem_of_here|done|done|].
    erewrite bind_ok by exact Hrun.
    apply IH; [|done|done]. intros b2 y s2 Hy. by apply Hf, list_elem_of_further.
Qed.

Section Populate.
Context {U : Unicode}.
Variables (spotify_tracks_ : list SpotifyTrack) (tidal_tracks_ : list TidalTrack).
Variable s0 : State.

Lemma populate_inv_start : populate_inv spotify_tracks_ tidal_tracks_ s0 s0.
Proof. split; [done|]. intros ? ? ?. by left. Qed.

Lemma populate_inv_insert s tidal_track spotify_track :
  tidal_track ∈ tidal_tracks_ → spotify_track ∈ spotify_tracks_ →
  td_available tidal_track && match_ tidal_track spotify_track = true →
  populate_inv spotify_tracks_ tidal_tracks_ s0 s →
  populate_inv spotify_tracks_ tidal_tracks_ s0 (set_track_match_cache
                  (<[sp_id spotify_track := td_id tidal_track]>) s).
Proof.
  intros Htd Hsp Hmatch [Hsame Hpaired]. apply andb_true_iff in Hmatch as [Hav Hm].
  split; [done|]. intros source_id tidal_id. simpl.
  destruct (decide (sp_id spotify_track = source_id)) as [<-|Hne].
  - rewrite lookup_insert_eq. intros [= <-]. right.
    by exists tidal_track, spotify_track.
  - rewrite lookup_insert_ne by done. apply Hpaired.
Qed.

Lemma _populate_one_track_from_tidal_loop_inv tidal_track snapshot spotify_tracks s :
  tidal_track ∈ tidal_tracks_ →
  (∀ idx spotify_track, (idx, spotify_track) ∈ snapshot → spotify_track ∈ spotify_tracks_) →
  spotify_tracks ⊆ spotify_tracks_ →
  populate_inv spotify_tracks_ tidal_tracks_ s0 s →
  ∃ spotify_tracks' s',
    _populate_one_track_from_tidal_loop tidal_track snapshot spotify_tracks s
    = (Ok spotify_tracks', s')
    ∧ populate_inv spotify_tracks_ tidal_tracks_ s0 s' ∧ spotify_tracks' ⊆ spotify_tracks_.
Proof.
  intros Htd. induction snapshot as [|[idx spotify_track] snapshot IH];
    intros Hsnap Hsub Hinv; simpl.
  - by exists spotify_tracks, s.
  - destruct (td_available tidal_track && match_ tidal_track spotify_track) eqn:Hmatch.
    + rewrite bind_insert. eexists _, _. split; [reflexivity|]. split.
      * apply populate_inv_insert; [done| |done|done].
        eapply Hsnap, list_elem_of_here.
      * intros x Hx. apply Hsub. by eapply list_elem_of_delete_inv.
    + apply IH; [|done|done]. intros i x Hx. eapply Hsnap, list_elem_of_further, Hx.
Qed.

Lemma _populate_one_track_from_spotify_loop_inv spotify_track snapshot tidal_tracks s :
  spotify_track ∈ spotify_tracks_ →
  (∀ idx tidal_track, (idx, tidal_track) ∈ snapshot → tidal_track ∈ tidal_tracks_) →
  tidal_tracks ⊆ tidal_tracks_ →
  populate_inv spotify_tracks_ tidal_tracks_ s0 s →
  ∃ tidal_tracks' s',
    _populate_one_track_from_spotify_loop spotify_track snapshot tidal_tracks s
    = (Ok tidal_tracks', s')
    ∧ populate_inv spotify_tracks_ tidal_tracks_ s0 s' ∧ tidal_tracks' ⊆ tidal_tracks_.
Proof.
  intros Hsp. induction snapshot as [|[idx tidal_track] snapshot IH];
    intros Hsnap Hsub Hinv; simpl.
  - by exists tidal_tracks, s.
  - destruct (td_available tidal_track && match_ tidal_track spotify_track) eqn:Hmatch.
    + rewrite bind_insert. eexists _, _. split; [reflexivity|]. split.
      * apply populate_inv_insert; [|done|done|done].
        eapply Hsnap, list_elem_of_here.
      * intros x Hx. apply Hsub. by eapply list_elem_of_delete_inv.
    + apply IH; [|done|done]. intros i x Hx. eapply Hsnap, list_elem_of_further, Hx.
Qed.

Lemma snapshot_elements {A} (l l' : list A) idx x :
  l ⊆ l' → (idx, x) ∈ imap pair l → x ∈ l'.
Proof.
  intros Hsub Hx. apply elem_of_lookup_imap in Hx as (i & y & [= -> ->] & Hl).
  apply Hsub. by eapply list_elem_of_lookup_2.
Qed.

Lemma populate_track_match_cache_inv :
  ∃ s', populate_track_match_cache spotify_tracks_ tidal_tracks_ s0 = (Ok (), s')
        ∧ populate_inv spotify_tracks_ tidal_tracks_ s0 s'.
Proof.
  unfold populate_track_match_cache.
  destruct (foldM_invariant _populate_one_track_from_tidal
                (populate_inv spotify_tracks_ tidal_tracks_ s0)
              (λ l, l ⊆ spotify_tracks_) tidal_tracks_) with (b := spotify_tracks_) (s := s0)
    as (spotify_tracks & s1 & Hrun1 & Hinv1 & Hsub1).
  { intros l tidal_track s Htd Hsub Hinv.
    apply _populate_one_track_from_tidal_loop_inv; [done| |done|done].
    intros idx x. by apply snapshot_elements. }
  { done. }
  { apply populate_inv_start. }
  erewrite bind_ok by exact Hrun1.
  destruct (foldM_invariant _populate_one_track_from_spotify
                (populate_inv spotify_tracks_ tidal_tracks_ s0)
              (λ l, l ⊆ tidal_tracks_) spotify_tracks) with (b := tidal_tracks_) (s := s1)
    as (tidal_tracks & s2 & Hrun2 & Hinv2 & Hsub2).
  { intros l spotify_track s Hsp Hsub Hinv.
    apply _populate_one_track_from_spotify_loop_inv; [by apply Hsub1| |done|done].
    intros idx x. by apply snapshot_elements. }
  { done. }
  { done. }
  erewrite bind_ok by exact Hrun2. by exists s2.
Qed.

End Populate.

(** C9: [populate_track_match_cache] changes nothing but the Match Cache,
    and every record it adds pairs a source track with a target track whose
    availability flag is true and which matches it; a search-confirmed match
    is recorded without looking at the flag. *)
Theorem populate_pairs_only_available {U : Unicode} {D : Difflib}
    (spotify_tracks : list SpotifyTrack) (tidal_tracks : list TidalTrack) (s : State) :
  (∃ s', populate_track_match_cache spotify_tracks tidal_tracks s = (Ok (), s')
         ∧ only_matches_changed s s'
         ∧ ∀ source_id tidal_id,
             track_match_cache s' !! source_id = Some tidal_id →
             track_match_cache s !! source_id = Some tidal_id
             ∨ ∃ tidal_track spotify_track,
                 tidal_track ∈ tidal_tracks ∧ spotify_track ∈ spotify_tracks
                 ∧ td_id tidal_track = tidal_id ∧ sp_id spotify_track = source_id
                 ∧ td_available tidal_track = true
                 ∧ match_ tidal_track spotify_track = true)
  ∧ (∃ (TS : TidalSession) spotify_track tidal_track s',
       td_available tidal_track = false
       ∧ search_new_tracks_on_tidal [spotify_track] initial_state
         = (Ok [Some tidal_track], s')
       ∧ track_match_cache s' !! sp_id spotify_track = Some (td_id tidal_track)).
Proof.
  split.
  - destruct (populate_track_match_cache_inv spotify_tracks tidal_tracks s)
      as (s' & Hrun & Hsame & Hpaired).
    exists s'. split; [done|]. split; [done|]. exact Hpaired.
  - exists only_unavailable, (track_s "s1" "Song" "Band" 200000 (Some "USABC1234567")),
           unavailable_candidate.
    eexists. split; [reflexivity|]. split; [reflexivity|]. reflexivity.
Qed.

Lemma populate_pairs_only_available_witness :
  let s1 := track_s "s1" "Song" "Band" 200000 (Some "USABC1234567") in
  let gone := track_t 9 "Song" "Band" 200 (Some "USABC1234567") false in
  let there := track_t 10 "Song" "Band" 200 (Some "USABC1234567") true in
  track_match_cache
    (populate_track_match_cache (U := AsciiText) [s1] [gone] initial_state).2 = ∅
  ∧ track_match_cache
      (populate_track_match_cache (U := AsciiText) [s1] [gone; there] initial_state).2
    !! Some "s1" = Some 10.
Proof.
  intros s1 gone there. split.
  - destruct (populate_pairs_only_available (U := AsciiText) (D := any_ratio)
                [s1] [gone] initial_state) as [(s' & Hrun & _ & Hpaired) _].
    rewrite Hrun. simpl. apply map_empty. intros source_id.
    destruct (track_match_cache s' !! source_id) as [tidal_id|] eqn:Hlook; [|done].
    destruct (Hpaired _ _ Hlook) as [Hold | (tt & st & Htt & _ & _ & _ & Hav & _)].
    + discriminate Hold.
    + apply list_elem_of_singleton in Htt as ->. discriminate Hav.
  - vm_compute. reflexivity.
Defined.

(** ** Failure records *)

(** C6 at its failing input: a source track with a cached failure and no
    cached match, and a target playlist that meanwhile holds an available
    track with the same ISRC.  Pre-population records the match and leaves
    the failure record in place, so that both caches hold the source id;
    [sync_tracks] then finds nothing to search and ends in that state. *)
Theorem prepopulation_keeps_failure_record {U : Unicode} {D : Difflib} {TS : TidalSession} :
  let spotify_track := track_s "s1" "Song" "Band" 200000 (Some "USABC1234567") in
  let tidal_track := track_t 1 "Song" "Band" 200 (Some "USABC1234567") true in
  let s := set_failure_cache (λ _, {[Some "s1"]}) initial_state in
  let s' := (populate_track_match_cache [spotify_track] [tidal_track] s).2 in
  let s'' := (sync_tracks [spotify_track] [tidal_track] false s).2 in
  (track_match_cache s !! Some "s1" = None ∧ Some "s1" ∈ failure_cache s)
  ∧ (track_match_cache s' !! Some "s1" = Some 1 ∧ Some "s1" ∈ failure_cache s')
  ∧ (track_match_cache s'' !! Some "s1" = Some 1 ∧ Some "s1" ∈ failure_cache s''
     ∧ stdout s'' = [NoNewTracks]).
Proof.
  intros spotify_track tidal_track s s' s''.
  assert (s' = set_track_match_cache (<[Some "s1" := 1]>) s) as -> by reflexivity.
  assert (s'' = add_stdout [NoNewTracks] (set_track_match_cache (<[Some "s1" := 1]>) s))
    as ->.
  { subst s''. unfold sync_tracks, get_new_spotify_tracks.
    erewrite bind_ok; [|erewrite bind_ok by reflexivity; reflexivity].
    reflexivity. }
  simpl. repeat split; try reflexivity; apply elem_of_singleton; reflexivity.
Qed.

(** ** What the updater is given *)

(** C1 at its failing input.  The source is [s1, s2]; the target holds [t1],
    which matches [s1]; the search finds [t2] for [s2].  The desired sequence
    is [1, 2], but [sync_tracks] hands the updater the search results of the
    new tracks only, so the updater replaces the target by [2].  On the next
    run every track resolves from the cache, [sync_tracks] returns before it
    reaches the updater, and the target stays [2]. *)
Theorem updater_gets_new_search_results_only {U : Unicode} {D : Difflib} :
  let s1 := track_s "s1" "First" "Band" 200000 (Some "USABC1234567") in
  let s2 := track_s "s2" "Second" "Band" 180000 (Some "GBXYZ7654321") in
  let t1 := track_t 1 "First" "Band" 200 (Some "USABC1234567") true in
  let t2 := track_t 2 "Second" "Band" 180 (Some "GBXYZ7654321") true in
  let run1 := sync_tracks (TS := finds t2) [s1; s2] [t1] false initial_state in
  let run2 := sync_tracks (TS := finds t2) [s1; s2] [t2] false run1.2 in
  (get_tracks_for_new_tidal_playlist [s1; s2] run1.2).1 = Ok [1; 2]
  ∧ playlist_calls run1.2 = [set_tidal_playlist [2] false]
  ∧ apply_mutations [1] (playlist_calls run1.2) = [2]
  ∧ run2 = (Ok (), add_stdout [NoNewTracks] run1.2)
  ∧ apply_mutations [1] (playlist_calls run2.2) = [2].
Proof.
  intros s1 s2 t1 t2 run1 run2.
  assert (run1 = (Ok (),
            {| track_match_cache := <[Some "s2" := 2]> (<[Some "s1" := 1]> ∅);
               failure_cache := ∅ ∖ {[Some "s2"]}; stdout := []; slept := [];
               requests := 2; playlist_calls := [set_tidal_playlist [2] false] |}))
    as Hrun1 by reflexivity.
  assert (run2 = (Ok (), add_stdout [NoNewTracks] run1.2)) as Hrun2.
  { subst run2. rewrite Hrun1. reflexivity. }
  rewrite Hrun2, Hrun1. repeat split.
Qed.

(** * Further properties *)

(** ** One search *)

Ltac split_frame := split; [|split; [|split; [|split; [|split]]]].

Lemma search_frame_refl st s : search_frame st 0 s s.
Proof. split_frame; try done. lia. Qed.

Lemma search_frame_trans st n1 n2 s1 s2 s3 :
  search_frame st n1 s1 s2 → search_frame st n2 s2 s3 →
  search_frame st (n1 + n2) s1 s3.
Proof.
  intros (Hm1 & Hf1 & Ho1 & Hs1 & Hp1 & Hr1) (Hm2 & Hf2 & Ho2 & Hs2 & Hp2 & Hr2).
  split_frame; try congruence; try lia.
  intros k Hk. rewrite Hf2, Hf1 by done. done.
Qed.

Lemma search_frame_weaken st n n' s s' :
  (n ≤ n')%nat → search_frame st n s s' → search_frame st n' s s'.
Proof. intros Hn (? & ? & ? & ? & ? & ?). split_frame; try done. lia. Qed.

Lemma search_frame_remove st s :
  search_frame st 0 s (set_failure_cache (λ f, f ∖ {[sp_id st]}) s).
Proof.
  split_frame; try done; [|simpl; lia].
  intros k Hk. simpl. rewrite elem_of_difference, elem_of_singleton. naive_solver.
Qed.

Lemma search_frame_cache_failure st s :
  search_frame st 0 s (set_failure_cache (λ f, {[sp_id st]} ∪ f) s).
Proof.
  split_frame; try done; [|simpl; lia].
  intros k Hk. simpl. rewrite elem_of_union, elem_of_singleton. naive_solver.
Qed.

Lemma search_frame_request st s : search_frame st 1 s (add_requests 1 s).
Proof. split_frame; try done. simpl. lia. Qed.

Lemma py_index_any {A} (l : list A) (i : Z) s r s' :
  py_index l i s = (r, s') →
  s' = s ∧ match r with
           | Ok x => x ∈ l
           | Raise e => e = IndexError ∧ (i < 0 ∨ Z.of_nat (length l) ≤ i)
           end.
Proof.
  unfold py_index.
  destruct (i <? 0) eqn:Hneg.
  - destruct (_ || _); [intros [= <- <-]; split; [done|]; split; [done|]; lia|].
    destruct (l !! _) as [x|] eqn:Hx; intros [= <- <-]; split; try done.
    + by eapply list_elem_of_lookup_2.
    + split; [done|]. lia.
  - destruct ((i <? 0) || (Z.of_nat (length l) <=? i)) eqn:Hrange.
    + intros [= <- <-]. split; [done|]. split; [done|]. lia.
    + apply orb_false_iff in Hrange as [_ Hle].
      destruct (l !! Z.to_nat i) as [x|] eqn:Hx; intros [= <- <-]; split; try done.
      * by eapply list_elem_of_lookup_2.
      * apply lookup_ge_None in Hx. lia.
Qed.

Section OneSearch.
Context {U : Unicode} {D : Difflib} {TS : TidalSession}.

Lemma _search_tracks_loop_any st tracks s r s' :
  (∀ t, t ∈ tracks → from_catalog t) →
  _search_tracks_loop st tracks s = (r, s') →
  search_frame st 0 s s'
  ∧ match r with
    | Ok (Some t) =>
        match_ t st = true ∧ from_catalog t ∧ sp_id st ∉ failure_cache s'
    | Ok None => failure_cache s' = failure_cache s
    | Raise _ => False
    end.
Proof.
  intros Hfrom. induction tracks as [|track tracks IH]; simpl.
  - intros [= <- <-]. split; [apply search_frame_refl|done].
  - destruct (match_ track st) eqn:Hmatch.
    + intros [= <- <-]. split; [apply search_frame_remove|].
      split; [done|]. split; [apply Hfrom, list_elem_of_here|]. simpl. set_solver.
    + apply IH. intros t Ht. by apply Hfrom, list_elem_of_further.
Qed.

Lemma _search_albums_loop_any st album_name album_artists albums s r s' :
  (∀ album, album ∈ albums → album_from_catalog album) →
  _search_albums_loop st album_name album_artists albums s = (r, s') →
  search_frame st (length albums) s s'
  ∧ match r with
    | Ok (Some t) =>
        match_ t st = true ∧ from_catalog t ∧ sp_id st ∉ failure_cache s'
    | Ok None => failure_cache s' = failure_cache s
    | Raise e =>
        (∃ album k, album_from_catalog album ∧ tal_tracks album k = Raise e)
        ∨ (e = IndexError ∧ sp_track_number st ≤ 0)
    end.
Proof.
  intros Hfrom. revert s.
  induction albums as [|album albums IH]; intros s; cbn [_search_albums_loop length].
  - intros [= <- <-]. split; [apply search_frame_refl|done].
  - assert (∀ album', album' ∈ albums → album_from_catalog album') as Hfrom'
      by (intros; by apply Hfrom, list_elem_of_further).
    assert (album_from_catalog album) as Halbum by apply Hfrom, list_elem_of_here.
    specialize (IH Hfrom').
    assert (search_frame st (S (length albums)) s (add_requests 1 s)) as Hlisted
      by (eapply search_frame_weaken, search_frame_request; lia).
    assert (_search_albums_loop st album_name album_artists albums (add_requests 1 s)
              = (r, s') →
            search_frame st (S (length albums)) s s'
            ∧ match r with
              | Ok (Some t) =>
                  match_ t st = true ∧ from_catalog t ∧ sp_id st ∉ failure_cache s'
              | Ok None => failure_cache s' = failure_cache s
              | Raise e =>
                  (∃ album k, album_from_catalog album ∧ tal_tracks album k = Raise e)
                  ∨ (e = IndexError ∧ sp_track_number st ≤ 0)
              end) as Hnext.
    { intros Hrun. destruct (IH _ Hrun) as [Hframe Hr]. split; [|done].
      apply (search_frame_trans st 1 (length albums) s (add_requests 1 s) s');
        [apply search_frame_request|done]. }
    destruct ((sp_track_number st <=? tal_num_tracks album)
              && test_album_similarity album_name album_artists album) eqn:Hcond.
    2:{ intros Hrun. destruct (IH _ Hrun) as [Hframe Hr]. split; [|done].
        eapply search_frame_weaken, Hframe. lia. }
    apply andb_true_iff in Hcond as [Hnum%Z.leb_le _].
    pose proof (eq_refl (album_tracks_request album s)) as Hreq.
    unfold album_tracks_request at 2 in Hreq.
    destruct (tal_tracks album (requests s)) as [album_tracks|e] eqn:Hlist.
    2:{ erewrite bind_raise by exact Hreq. intros [= <- <-]. split; [done|].
        left. by exists album, (requests s). }
    erewrite bind_ok by exact Hreq.
    destruct (Z.of_nat (length album_tracks) <? sp_track_number st) eqn:Hlen.
    { apply Z.ltb_lt in Hlen.
      destruct (Z.of_nat (length album_tracks) =? tal_num_tracks album) eqn:Heq;
        [apply Z.eqb_eq in Heq; lia|done]. }
    apply Z.ltb_ge in Hlen.
    destruct (py_index album_tracks (sp_track_number st - 1) (add_requests 1 s))
      as [[track|e] s1] eqn:Hidx.
    + erewrite bind_ok by exact Hidx.
      apply py_index_any in Hidx as [-> Hin].
      destruct (match_ track st) eqn:Hmatch; [|done].
      intros [= <- <-]. split.
      * eapply search_frame_weaken;
          [|apply (search_frame_trans st 1 0 s (add_requests 1 s));
            [apply search_frame_request|apply search_frame_remove]].
        lia.
      * split; [done|]. split; [|simpl; set_solver].
        right. by exists album, (requests s), album_tracks.
    + erewrite bind_raise by exact Hidx.
      apply py_index_any in Hidx as [-> [-> Hrange]].
      intros [= <- <-]. split; [done|]. right. split; [done|]. lia.
Qed.

Lemma _search_for_track_in_album_any st s r s' :
  _search_for_track_in_album st s = (r, s') →
  ∃ n, search_frame st n s s'
       ∧ (∀ bound, albums_bounded bound → (n ≤ 1 + bound)%nat)
       ∧ match r with
         | Ok (Some t) =>
             match_ t st = true ∧ from_catalog t ∧ sp_id st ∉ failure_cache s'
         | Ok None => failure_cache s' = failure_cache s
         | Raise e => search_error_origin st e
         end.
Proof.
  unfold _search_for_track_in_album.
  assert (∀ bound, albums_bounded bound → (0 ≤ 1 + bound)%nat) as Hzero by (intros; lia).
  destruct (sp_album st) as [album|];
    [|intros [= <- <-]; exists 0%nat; split; [apply search_frame_refl|done]].
  destruct (sal_artists album) as [[|first_artist album_artists]|];
    [intros [= <- <-]; exists 0%nat; split; [apply search_frame_refl|done]|
    |intros [= <- <-]; exists 0%nat; split; [apply search_frame_refl|done]].
  unfold mbind, M_bind, request.
  destruct (search_albums _ _) as [album_result|e] eqn:Hsearch.
  - intros Hloop. apply _search_albums_loop_any in Hloop as [Hframe Hr].
    2:{ intros found Hfound. by eexists _, _, album_result. }
    exists (1 + length album_result)%nat. split; [|split].
    + eapply (search_frame_trans st 1), Hframe. apply search_frame_request.
    + intros bound Hbound. apply Hbound in Hsearch. lia.
    + destruct r as [[t|]|e]; [done|done|].
      destruct Hr as [Hlisting | [-> Htn]].
      * right. by left.
      * right. right. right. split; [done|]. by right.
  - intros [= <- <-]. exists 1%nat. split; [apply search_frame_request|].
    split; [intros; lia|]. left. eauto.
Qed.

Lemma _search_for_standalone_track_any st s r s' :
  _search_for_standalone_track st s = (r, s') →
  search_frame st 1 s s'
  ∧ match r with
    | Ok (Some t) =>
        match_ t st = true ∧ from_catalog t ∧ sp_id st ∉ failure_cache s'
    | Ok None => failure_cache s' = failure_cache s
    | Raise e => search_error_origin st e
    end.
Proof.
  unfold _search_for_standalone_track.
  destruct (py_index (sp_artists st) 0 s) as [[first_artist|e] s1] eqn:Hidx.
  - erewrite bind_ok by exact Hidx. apply py_index_any in Hidx as [-> _].
    unfold mbind, M_bind, request.
    destruct (search_tracks _ _) as [tracks|e] eqn:Hsearch.
    + intros Hloop. apply _search_tracks_loop_any in Hloop as [Hframe Hr].
      2:{ intros t Ht. left. by eexists _, _, tracks. }
      split.
      * eapply (search_frame_trans st 1 0), Hframe. apply search_frame_request.
      * by destruct r as [[t|]|e].
    + intros [= <- <-]. split; [apply search_frame_request|]. right. right. left. eauto.
  - erewrite bind_raise by exact Hidx. apply py_index_any in Hidx as [-> [-> Hrange]].
    intros [= <- <-].
    split; [eapply search_frame_weaken, search_frame_refl; lia|].
    right. right. right. split; [done|]. left.
    destruct (sp_artists st); [done|]. simpl in Hrange. lia.
Qed.

Lemma tidal_search_any st s r s' :
  tidal_search st s = (r, s') →
  ∃ n, search_frame st n s s'
       ∧ (∀ bound, albums_bounded bound → (n ≤ 2 + bound)%nat)
       ∧ match r with
         | Ok (Some t) =>
             match_ t st = true ∧ from_catalog t ∧ sp_id st ∉ failure_cache s'
         | Ok None => failure_cache s' = {[sp_id st]} ∪ failure_cache s
         | Raise e => search_error_origin st e
         end.
Proof.
  unfold tidal_search.
  destruct (_search_for_track_in_album st s) as [[album_search|e] s1] eqn:Halbum.
  2:{ erewrite bind_raise by exact Halbum.
      apply _search_for_track_in_album_any in Halbum as (n & Hframe & Hn & Hr).
      intros [= <- <-]. exists n. split; [done|]. split; [|done].
      intros bound Hbound. apply Hn in Hbound. lia. }
  erewrite bind_ok by exact Halbum.
  apply _search_for_track_in_album_any in Halbum as (n & Hframe1 & Hn & Hr1).
  destruct album_search as [track|].
  { intros [= <- <-]. exists n. split; [done|]. split; [|done].
    intros bound Hbound. apply Hn in Hbound. lia. }
  destruct (_search_for_standalone_track st s1) as [[track_search|e] s2] eqn:Htrack.
  2:{ erewrite bind_raise by exact Htrack.
      apply _search_for_standalone_track_any in Htrack as [Hframe2 Hr2].
      intros [= <- <-]. exists (n + 1)%nat.
      split; [by apply (search_frame_trans st n 1 s s1 s2)|]. split; [|done].
      intros bound Hbound. apply Hn in Hbound. lia. }
  erewrite bind_ok by exact Htrack.
  apply _search_for_standalone_track_any in Htrack as [Hframe2 Hr2].
  pose proof (search_frame_trans st n 1 s s1 s2 Hframe1 Hframe2) as Hframe.
  destruct track_search as [track|].
  { intros [= <- <-]. exists (n + 1)%nat. split; [done|]. split; [|done].
    intros bound Hbound. apply Hn in Hbound. lia. }
  intros [= <- <-]. exists (n + 1)%nat. split; [|split].
  - replace (n + 1)%nat with (n + 1 + 0)%nat by lia.
    eapply search_frame_trans, search_frame_cache_failure. exact Hframe.
  - intros bound Hbound. apply Hn in Hbound. lia.
  - simpl. by rewrite Hr2, Hr1.
Qed.

End OneSearch.

(** A catalog whose album search returns one album, by the source track's
    artist, whose listing holds [tidal_track] as its first track. *)
Lemma tidal_search_album_hit :
  let st := track_s "s1" "Song" "Band" 200000 (Some "USABC1234567") in
  let t := track_t 12 "Song" "Band" 200 (Some "USABC1234567") true in
  tidal_search (U := AsciiText) (D := any_ratio) (TS := one_album t) st initial_state
  = (Ok (Some t), set_failure_cache (λ f, f ∖ {[Some "s1"]}) (add_requests 2 initial_state)).
Proof. reflexivity. Qed.

(** X1: whatever [tidal_search] returns or raises, it leaves the Match
    Cache, the printed lines, the sleeps and the playlist alone and changes
    no failure record but the one of the searched track.  It issues at most
    two search requests and one listing request per album that the album
    search returned.  A hit is a track that the catalog returned and that
    [match] confirms, and leaves no failure record for the searched track; a
    miss adds that record. *)
Theorem tidal_search_effects {U : Unicode} {D : Difflib} {TS : TidalSession}
    (spotify_track : SpotifyTrack) (s : State) :
  let run := tidal_search spotify_track s in
  (∃ n, search_frame spotify_track n s run.2
        ∧ ∀ bound, albums_bounded bound → (n ≤ 2 + bound)%nat)
  ∧ match run.1 with
    | Ok (Some tidal_track) =>
        match_ tidal_track spotify_track = true
        ∧ from_catalog tidal_track
        ∧ sp_id spotify_track ∉ failure_cache run.2
    | Ok None =>
        failure_cache run.2 = {[sp_id spotify_track]} ∪ failure_cache s
    | Raise _ => True
    end.
Proof.
  intros run. destruct run as [r s'] eqn:Hrun. subst run.
  apply tidal_search_any in Hrun as (n & Hframe & Hn & Hr). split; [by exists n|].
  simpl. by destruct r as [[t|]|e].
Qed.

Lemma tidal_search_effects_witness :
  let st := track_s "s1" "Song" "Band" 200000 (Some "USABC1234567") in
  let t := track_t 12 "Song" "Band" 200 (Some "USABC1234567") true in
  let run := tidal_search (U := AsciiText) (D := any_ratio) (TS := one_album t)
               st initial_state in
  run.1 = Ok (Some t)
  ∧ requests run.2 = 2%nat
  ∧ match_ (U := AsciiText) t st = true
  ∧ from_catalog (TS := one_album t) t
  ∧ (sp_id st ∉ failure_cache run.2).
Proof.
  intros st t run. split; [reflexivity|]. split; [reflexivity|].
  exact (proj2 (tidal_search_effects (U := AsciiText) (D := any_ratio) (TS := one_album t)
                  st initial_state)).
Defined.

(** X2: the code of [tidal_search] itself does not fail on a source track
    that has an artist and a positive track number: an exception it raises
    is one the catalog raised, in the album search, in the listing of an
    album that search returned, or in the track search.  In particular the
    assertion on the album's track count never fires. *)
Theorem tidal_search_raises_catalog_errors_only {U : Unicode} {D : Difflib}
    {TS : TidalSession} (spotify_track : SpotifyTrack) (s s' : State) (e : Exception) :
  sp_artists spotify_track ≠ [] →
  0 < sp_track_number spotify_track →
  tidal_search spotify_track s = (Raise e, s') →
  (∃ n query, search_albums n query = Raise e)
  ∨ (∃ n query albums album k,
       search_albums n query = Ok albums ∧ album ∈ albums
       ∧ tal_tracks album k = Raise e)
  ∨ (∃ n query, search_tracks n query = Raise e).
Proof.
  intros Hartists Hnumber Hrun.
  apply tidal_search_any in Hrun as (n & _ & _ & Horigin).
  destruct Horigin as [Halbums | [Hlisting | [Htracks | [_ [Hno | Hno]]]]];
    [by left| |by right; right|done|lia].
  right. left. destruct Hlisting as (album & k & (n' & query & albums & Hs & Hin) & Hraise).
  by exists n', query, albums, album, k.
Qed.

Lemma tidal_search_raises_catalog_errors_only_witness :
  let st := track_s "s1" "Song" "Band" 200000 None in
  tidal_search (U := AsciiText) (D := any_ratio) (TS := listing_down) st initial_state
  = (Raise TooManyRequests, add_requests 2 initial_state)
  ∧ ((∃ n query, search_albums (TidalSession := listing_down) n query
                 = Raise TooManyRequests)
     ∨ (∃ n query albums album k,
          search_albums (TidalSession := listing_down) n query = Ok albums
          ∧ album ∈ albums ∧ tal_tracks album k = Raise TooManyRequests)
     ∨ (∃ n query, search_tracks (TidalSession := listing_down) n query
                   = Raise TooManyRequests)).
Proof.
  intros st. split; [reflexivity|].
  apply (tidal_search_raises_catalog_errors_only (U := AsciiText) (D := any_ratio)
           (TS := listing_down) st initial_state (add_requests 2 initial_state)).
  - discriminate.
  - reflexivity.
  - reflexivity.
Defined.

(** ** Retrying any function *)

Lemma repeat_on_request_error_any {A} (function : M A) (remaining : nat) (s : State) :
  match repeat_on_request_error function remaining s with
  | (Ok v, s') => ∃ s0, function s0 = (Ok v, s')
  | (Raise e, s') =>
      is_request_error e = false
      ∧ (e = SystemExit 1 ∨ ∃ s0, function s0 = (Raise e, s'))
  end.
Proof.
  revert s. induction remaining as [|remaining IH]; intros s.
  - destruct (function s) as [[v|e] s1] eqn:Hf.
    + erewrite repeat_on_request_error_returns by exact Hf. eauto.
    + destruct (is_request_error e) eqn:He.
      * erewrite repeat_on_request_error_exhausted by done. split; [done|]. by left.
      * erewrite repeat_on_request_error_other by done. split; [done|]. eauto.
  - destruct (function s) as [[v|e] s1] eqn:Hf.
    + erewrite repeat_on_request_error_returns by exact Hf. eauto.
    + destruct (is_request_error e) eqn:He.
      * erewrite repeat_on_request_error_retries by done. apply IH.
      * erewrite repeat_on_request_error_other by done. split; [done|]. eauto.
Qed.

(** X3: [repeat_on_request_error] never lets a rate-limit or transport
    error escape, for any wrapped function and any number of retries: what
    it returns is what a call of the function returned, and what it raises
    is [SystemExit(1)] or an exception of another kind that a call of the
    function raised. *)
Theorem repeat_on_request_error_never_leaks {A : Type} (function : M A)
    (remaining : nat) (s : State) :
  let run := repeat_on_request_error function remaining s in
  match run.1 with
  | Ok v => ∃ s0, function s0 = (Ok v, run.2)
  | Raise e =>
      is_request_error e = false
      ∧ (e = SystemExit 1 ∨ ∃ s0, function s0 = (Raise e, run.2))
  end.
Proof.
  intros run. subst run.
  pose proof (repeat_on_request_error_any function remaining s) as Hany.
  by destruct (repeat_on_request_error function remaining s) as [[v|e] s'].
Qed.

Lemma keeps_repeat_on_request_error {A} (I : State → Prop) (Q : A → Prop)
    (function : M A) (remaining : nat) :
  (∀ s evs, I s → I (add_stdout evs s)) →
  (∀ s seconds, I s → I (add_slept seconds s)) →
  keeps I Q function →
  keeps I Q (repeat_on_request_error function remaining).
Proof.
  intros Hout Hslept Hf. induction remaining as [|remaining IH]; intros s r s' HI.
  - destruct (function s) as [[v|e] s1] eqn:Hrun.
    + erewrite repeat_on_request_error_returns by exact Hrun.
      intros [= <- <-]. by apply (Hf s _ _ HI Hrun).
    + destruct (Hf s _ _ HI Hrun) as [HI1 _].
      destruct (is_request_error e) eqn:He.
      * erewrite repeat_on_request_error_exhausted by done.
        intros [= <- <-]. split; [by apply Hout|done].
      * erewrite repeat_on_request_error_other by done. by intros [= <- <-].
  - destruct (function s) as [[v|e] s1] eqn:Hrun.
    + erewrite repeat_on_request_error_returns by exact Hrun.
      intros [= <- <-]. by apply (Hf s _ _ HI Hrun).
    + destruct (Hf s _ _ HI Hrun) as [HI1 _].
      destruct (is_request_error e) eqn:He.
      * erewrite repeat_on_request_error_retries by done.
        apply IH. by apply Hslept, Hout.
      * erewrite repeat_on_request_error_other by done. by intros [= <- <-].
Qed.

Lemma keeps_mapM' {A B} (I : State → Prop) (Q : A → B → Prop) (f : A → M B)
    (l : list A) :
  (∀ x, x ∈ l → keeps I (Q x) (f x)) →
  keeps I (λ ys, Forall2 Q l ys) (mapM' f l).
Proof.
  induction l as [|x l IH]; intros Hf s r s' HI; simpl.
  - intros [= <- <-]. split; [done|]. constructor.
  - destruct (f x s) as [[y|e] s1] eqn:Hx.
    + erewrite bind_ok by exact Hx.
      destruct (Hf x (list_elem_of_here _ _) s _ _ HI Hx) as [HI1 HQ].
      destruct (mapM' f l s1) as [[ys|e] s2] eqn:Hl.
      * erewrite bind_ok by exact Hl. intros [= <- <-].
        destruct (IH (λ z Hz, Hf z (list_elem_of_further _ _ _ Hz)) s1 _ _ HI1 Hl)
          as [HI2 Hys].
        split; [done|]. by constructor.
      * erewrite bind_raise by exact Hl. intros [= <- <-].
        by destruct (IH (λ z Hz, Hf z (list_elem_of_further _ _ _ Hz)) s1 _ _ HI1 Hl).
    + erewrite bind_raise by exact Hx. intros [= <- <-].
      by destruct (Hf x (list_elem_of_here _ _) s _ _ HI Hx).
Qed.

(** ** The tracks to search *)

Lemma get_new_spotify_tracks_loop_filter (l results : list SpotifyTrack) (s : State) :
  get_new_spotify_tracks_loop l results s
  = (Ok (results ++ filter (λ st, is_new s st = true) l), s).
Proof.
  revert results. induction l as [|st l IH]; intros results; simpl.
  - by rewrite app_nil_r.
  - unfold is_new at 1.
    destruct (str_truthy (sp_id st)) eqn:Hid; simpl.
    + rewrite bind_get, bind_has_match_failure.
      destruct (negb (tidal_id_truthy _) && negb (bool_decide _)) eqn:Hnew.
      * rewrite IH, filter_cons_True by (unfold is_new; by rewrite Hid).
        by rewrite <- app_assoc.
      * rewrite IH, filter_cons_False; [done|].
        unfold is_new. rewrite Hid. simpl. by rewrite Hnew.
    + rewrite IH, filter_cons_False; [done|]. unfold is_new. by rewrite Hid.
Qed.

(** X4: [get_new_spotify_tracks] always returns; it leaves the state as
    pre-population left it and returns, in source order, exactly the source
    tracks that have an id, no cached match (a cached id 0 counts as none)
    and no cached failure in that state. *)
Theorem get_new_spotify_tracks_filter {U : Unicode} (spotify_tracks : list SpotifyTrack)
    (old_tidal_tracks : list TidalTrack) (s : State) :
  ∃ s1, populate_track_match_cache spotify_tracks old_tidal_tracks s = (Ok (), s1)
        ∧ get_new_spotify_tracks spotify_tracks old_tidal_tracks s
          = (Ok (filter (λ st, is_new s1 st = true) spotify_tracks), s1)
        ∧ filter (λ st, is_new s1 st = true) spotify_tracks `sublist_of` spotify_tracks
        ∧ ∀ st, st ∈ filter (λ st, is_new s1 st = true) spotify_tracks ↔
                st ∈ spotify_tracks
                ∧ str_truthy (sp_id st) = true
                ∧ tidal_id_truthy (track_match_cache s1 !! sp_id st) = false
                ∧ (sp_id st ∉ failure_cache s1).
Proof.
  destruct (populate_track_match_cache_inv spotify_tracks old_tidal_tracks s)
    as (s1 & Hpop & _).
  exists s1. split; [done|]. split; [|split].
  - unfold get_new_spotify_tracks. erewrite bind_ok by exact Hpop.
    by rewrite get_new_spotify_tracks_loop_filter.
  - apply sublist_filter.
  - intros st. rewrite list_elem_of_filter. unfold is_new.
    rewrite !andb_true_iff, !negb_true_iff, bool_decide_eq_false. naive_solver.
Qed.

(** ** Pre-population, for any invariant of the guarded insert *)

Section PopulateKeeps.
Context {U : Unicode}.
Variables (spotify_tracks_ : list SpotifyTrack) (tidal_tracks_ : list TidalTrack).
Variable P : State → Prop.
Hypothesis P_insert : ∀ s tidal_track spotify_track,
  tidal_track ∈ tidal_tracks_ → spotify_track ∈ spotify_tracks_ →
  td_available tidal_track && match_ tidal_track spotify_track = true →
  P s → P (set_track_match_cache (<[sp_id spotify_track := td_id tidal_track]>) s).

Lemma _populate_one_track_from_tidal_loop_keeps tidal_track snapshot spotify_tracks s :
  tidal_track ∈ tidal_tracks_ →
  (∀ idx spotify_track, (idx, spotify_track) ∈ snapshot → spotify_track ∈ spotify_tracks_) →
  spotify_tracks ⊆ spotify_tracks_ →
  P s →
  ∃ spotify_tracks' s',
    _populate_one_track_from_tidal_loop tidal_track snapshot spotify_tracks s
    = (Ok spotify_tracks', s')
    ∧ P s' ∧ spotify_tracks' ⊆ spotify_tracks_.
Proof.
  intros Htd. induction snapshot as [|[idx spotify_track] snapshot IH];
    intros Hsnap Hsub HP; simpl.
  - by exists spotify_tracks, s.
  - destruct (td_available tidal_track && match_ tidal_track spotify_track) eqn:Hmatch.
    + rewrite bind_insert. eexists _, _. split; [reflexivity|]. split.
      * apply P_insert; [done| |done|done]. eapply Hsnap, list_elem_of_here.
      * intros x Hx. apply Hsub. by eapply list_elem_of_delete_inv.
    + apply IH; [|done|done]. intros i x Hx. eapply Hsnap, list_elem_of_further, Hx.
Qed.

Lemma _populate_one_track_from_spotify_loop_keeps spotify_track snapshot tidal_tracks s :
  spotify_track ∈ spotify_tracks_ →
  (∀ idx tidal_track, (idx, tidal_track) ∈ snapshot → tidal_track ∈ tidal_tracks_) →
  tidal_tracks ⊆ tidal_tracks_ →
  P s →
  ∃ tidal_tracks' s',
    _populate_one_track_from_spotify_loop spotify_track snapshot tidal_tracks s
    = (Ok tidal_tracks', s')
    ∧ P s' ∧ tidal_tracks' ⊆ tidal_tracks_.
Proof.
  intros Hsp. induction snapshot as [|[idx tidal_track] snapshot IH];
    intros Hsnap Hsub HP; simpl.
  - by exists tidal_tracks, s.
  - destruct (td_available tidal_track && match_ tidal_track spotify_track) eqn:Hmatch.
    + rewrite bind_insert. eexists _, _. split; [reflexivity|]. split.
      * apply P_insert; [|done|done|done]. eapply Hsnap, list_elem_of_here.
      * intros x Hx. apply Hsub. by eapply list_elem_of_delete_inv.
    + apply IH; [|done|done]. intros i x Hx. eapply Hsnap, list_elem_of_further, Hx.
Qed.

Lemma populate_track_match_cache_keeps s :
  P s → ∃ s', populate_track_match_cache spotify_tracks_ tidal_tracks_ s = (Ok (), s') ∧ P s'.
Proof.
  intros HP. unfold populate_track_match_cache.
  destruct (foldM_invariant _populate_one_track_from_tidal P
              (λ l, l ⊆ spotify_tracks_) tidal_tracks_) with (b := spotify_tracks_) (s := s)
    as (spotify_tracks & s1 & Hrun1 & HP1 & Hsub1); [|done|done|].
  { intros l tidal_track s2 Htd Hsub HP2.
    apply _populate_one_track_from_tidal_loop_keeps; [done| |done|done].
    intros idx x. by apply snapshot_elements. }
  erewrite bind_ok by exact Hrun1.
  destruct (foldM_invariant _populate_one_track_from_spotify P
              (λ l, l ⊆ tidal_tracks_) spotify_tracks) with (b := tidal_tracks_) (s := s1)
    as (tidal_tracks & s2 & Hrun2 & HP2 & Hsub2); [|done|done|].
  { intros l spotify_track s3 Hsp Hsub HP3.
    apply _populate_one_track_from_spotify_loop_keeps; [by apply Hsub1| |done|done].
    intros idx x. by apply snapshot_elements. }
  erewrite bind_ok by exact Hrun2. by exists s2.
Qed.

End PopulateKeeps.

Lemma populate_track_match_cache_kept {U : Unicode} (spotify_tracks : list SpotifyTrack)
    (tidal_tracks : list TidalTrack) (s : State) :
  ∃ s', populate_track_match_cache spotify_tracks tidal_tracks s = (Ok (), s')
        ∧ ∀ source_id,
            track_match_cache s' !! source_id = track_match_cache s !! source_id
            ∨ ∃ tidal_track,
                tidal_track ∈ tidal_tracks ∧ td_available tidal_track = true
                ∧ track_match_cache s' !! source_id = Some (td_id tidal_track).
Proof.
  apply (populate_track_match_cache_keeps spotify_tracks tidal_tracks
           (λ s', ∀ source_id,
              track_match_cache s' !! source_id = track_match_cache s !! source_id
              ∨ ∃ tidal_track,
                  tidal_track ∈ tidal_tracks ∧ td_available tidal_track = true
                  ∧ track_match_cache s' !! source_id = Some (td_id tidal_track))).
  - intros s1 tidal_track spotify_track Htd _ Hmatch HP source_id. simpl.
    apply andb_true_iff in Hmatch as [Hav _].
    destruct (decide (sp_id spotify_track = source_id)) as [<-|Hne].
    + right. exists tidal_track. by rewrite lookup_insert_eq.
    + rewrite lookup_insert_ne by done. apply HP.
  - intros source_id. by left.
Qed.

(** X5: pre-population never drops or empties a match record: afterwards
    every source id maps to what it mapped to before, or to the id of an
    available track of the target list. *)
Theorem populate_never_removes_a_record {U : Unicode} (spotify_tracks : list SpotifyTrack)
    (tidal_tracks : list TidalTrack) (s : State) :
  ∃ s', populate_track_match_cache spotify_tracks tidal_tracks s = (Ok (), s')
        ∧ ∀ source_id,
            track_match_cache s' !! source_id = track_match_cache s !! source_id
            ∨ ∃ tidal_track,
                tidal_track ∈ tidal_tracks ∧ td_available tidal_track = true
                ∧ track_match_cache s' !! source_id = Some (td_id tidal_track).
Proof. apply populate_track_match_cache_kept. Qed.

(** X6: when every source track that has an id already has a cached match
    or a cached failure, and no track of the target list has id 0,
    [sync_tracks] only pre-populates the Match Cache and prints that there is
    nothing new: it issues no catalog request and no playlist mutation. *)
Theorem sync_tracks_nothing_new {U : Unicode} {D : Difflib} {TS : TidalSession}
    (spotify_tracks : list SpotifyTrack) (old_tidal_tracks : list TidalTrack)
    (sync_favorites : bool) (s : State) :
  (∀ tidal_track, tidal_track ∈ old_tidal_tracks → td_id tidal_track ≠ 0) →
  (∀ st, st ∈ spotify_tracks → str_truthy (sp_id st) = true →
         tidal_id_truthy (track_match_cache s !! sp_id st) = true
         ∨ sp_id st ∈ failure_cache s) →
  ∃ s1, populate_track_match_cache spotify_tracks old_tidal_tracks s = (Ok (), s1)
        ∧ sync_tracks spotify_tracks old_tidal_tracks sync_favorites s
          = (Ok (), add_stdout [NoNewTracks] s1)
        ∧ requests s1 = requests s ∧ playlist_calls s1 = playlist_calls s
        ∧ slept s1 = slept s ∧ stdout s1 = stdout s
        ∧ failure_cache s1 = failure_cache s.
Proof.
  intros Hids Hcached.
  destruct (populate_track_match_cache_inv spotify_tracks old_tidal_tracks s)
    as (s1 & Hpop & (Hf & Hout & Hslept & Hreq & Hcalls) & _).
  destruct (populate_track_match_cache_kept spotify_tracks old_tidal_tracks s)
    as (s1' & Hpop' & Hkept).
  rewrite Hpop in Hpop'. injection Hpop' as <-.
  exists s1. split; [done|]. split; [|done].
  assert (filter (λ st, is_new s1 st = true) spotify_tracks = []) as Hnone.
  { destruct (filter _ spotify_tracks) as [|st rest] eqn:Hfilter; [done|exfalso].
    assert (st ∈ filter (λ st, is_new s1 st = true) spotify_tracks) as Hin
      by (rewrite Hfilter; apply list_elem_of_here).
    apply list_elem_of_filter in Hin as [Hnew Hst]. unfold is_new in Hnew.
    apply andb_true_iff in Hnew as [[Hid Hnomatch]%andb_true_iff Hnofail].
    apply negb_true_iff in Hnomatch, Hnofail.
    destruct (Hcached st Hst Hid) as [Hmatch | Hfailed].
    - destruct (Hkept (sp_id st)) as [Heq | (tt & Htt & _ & Heq)].
      + rewrite Heq in Hnomatch. congruence.
      + rewrite Heq in Hnomatch. simpl in Hnomatch.
        apply negb_false_iff, Z.eqb_eq in Hnomatch. by apply Hids in Htt.
    - apply bool_decide_eq_false in Hnofail. apply Hnofail. by rewrite Hf. }
  unfold sync_tracks, get_new_spotify_tracks.
  erewrite bind_ok; [|erewrite bind_ok by exact Hpop;
                      apply get_new_spotify_tracks_loop_filter].
  by rewrite Hnone.
Qed.

Lemma sync_tracks_nothing_new_witness :
  let s1 := track_s "s1" "First" "Band" 200000 (Some "USABC1234567") in
  let s2 := track_s "s2" "Second" "Band" 180000 None in
  let t1 := track_t 1 "First" "Band" 200 (Some "USABC1234567") true in
  let s := set_failure_cache (λ _, {[Some "s2"]})
             (set_track_match_cache (λ _, {[Some "s1" := 1]}) initial_state) in
  ∃ s', sync_tracks (U := AsciiText) (D := any_ratio) (TS := catalog_down)
          [s1; s2] [t1] false s = (Ok (), add_stdout [NoNewTracks] s')
        ∧ requests s' = 0%nat ∧ playlist_calls s' = [].
Proof.
  intros s1 s2 t1 s.
  destruct (sync_tracks_nothing_new (U := AsciiText) (D := any_ratio) (TS := catalog_down)
              [s1; s2] [t1] false s) as (s' & _ & Hrun & Hreq & Hcalls & _).
  - intros tt Htt. apply list_elem_of_singleton in Htt as ->. discriminate.
  - intros st Hst _. apply elem_of_cons in Hst as [-> | Hst].
    + left. reflexivity.
    + apply list_elem_of_singleton in Hst as ->. right.
      change (Some "s2" ∈ ({[Some "s2"]} : gset (option string))).
      by apply elem_of_singleton.
  - exists s'. split; [exact Hrun|]. split; [exact Hreq | exact Hcalls].
Defined.

(** ** What a run writes to the caches *)

Lemma match_needs_id {U : Unicode} t st : match_ t st = true → str_truthy (sp_id st) = true.
Proof. unfold match_. by destruct (str_truthy (sp_id st)). Qed.

Section CachesSound.
Context {U : Unicode} {D : Difflib} {TS : TidalSession}.
Variable spotify_tracks : list SpotifyTrack.
Variable old_tidal_tracks : list TidalTrack.
Variable s0 : State.

Lemma confirmed_pairs_start : confirmed_pairs spotify_tracks old_tidal_tracks s0 s0.
Proof. split; intros; by left. Qed.

Lemma confirmed_pairs_same_caches s s' :
  track_match_cache s' = track_match_cache s → failure_cache s' = failure_cache s →
  confirmed_pairs spotify_tracks old_tidal_tracks s0 s →
  confirmed_pairs spotify_tracks old_tidal_tracks s0 s'.
Proof. intros Hm Hf [Hmatches Hfailures]. split; rewrite ?Hm, ?Hf; done. Qed.

Lemma confirmed_pairs_insert s st t :
  st ∈ spotify_tracks → match_ t st = true →
  (t ∈ old_tidal_tracks ∧ td_available t = true) ∨ from_catalog t →
  confirmed_pairs spotify_tracks old_tidal_tracks s0 s →
  confirmed_pairs spotify_tracks old_tidal_tracks s0
    (set_track_match_cache (<[sp_id st := td_id t]>) s).
Proof.
  intros Hst Hmatch Horigin [Hmatches Hfailures]. split; [|done].
  intros source_id tidal_id. simpl.
  destruct (decide (sp_id st = source_id)) as [<-|Hne].
  - rewrite lookup_insert_eq. intros [= <-]. right. exists st, t.
    split; [done|]. split; [done|]. split; [by eapply match_needs_id|done].
  - rewrite lookup_insert_ne by done. apply Hmatches.
Qed.

Lemma confirmed_pairs_populate :
  ∃ s1, populate_track_match_cache spotify_tracks old_tidal_tracks s0 = (Ok (), s1)
        ∧ confirmed_pairs spotify_tracks old_tidal_tracks s0 s1.
Proof.
  apply (populate_track_match_cache_keeps spotify_tracks old_tidal_tracks
           (confirmed_pairs spotify_tracks old_tidal_tracks s0)).
  - intros s t st Ht Hst [Hav Hmatch]%andb_true_iff HI.
    apply confirmed_pairs_insert; [done|done| |done]. by left.
  - apply confirmed_pairs_start.
Qed.

Lemma keeps_tidal_search st :
  st ∈ spotify_tracks → str_truthy (sp_id st) = true →
  keeps (confirmed_pairs spotify_tracks old_tidal_tracks s0) (found_for st)
        (tidal_search st).
Proof.
  intros Hst Hid s r s' [Hmatches Hfailures] Hrun.
  apply tidal_search_any in Hrun as (n & (Hm & Hf & _) & _ & Hr). split.
  - split; [by rewrite Hm|].
    intros source_id Hin. destruct (decide (source_id = sp_id st)) as [->|Hne].
    + right. eauto.
    + apply Hfailures. by apply Hf.
  - destruct r as [[t|]|e]; [|done|done]. by destruct Hr as (? & ? & ?).
Qed.

Lemma keeps_add_search_results new results :
  new ⊆ spotify_tracks →
  Forall2 found_for new results →
  ∀ s, confirmed_pairs spotify_tracks old_tidal_tracks s0 s →
    ∃ s', add_search_results new results s = (Ok (), s')
          ∧ confirmed_pairs spotify_tracks old_tidal_tracks s0 s'
          ∧ failure_cache s' = failure_cache s
          ∧ playlist_calls s' = playlist_calls s ∧ requests s' = requests s.
Proof.
  intros Hsub Hall. induction Hall as [|st r new results Hr Hall IH]; intros s HI; simpl.
  - by exists s.
  - assert (st ∈ spotify_tracks) as Hst by apply Hsub, list_elem_of_here.
    assert (new ⊆ spotify_tracks) as Hsub'
      by (intros x Hx; by apply Hsub, list_elem_of_further).
    destruct r as [t|].
    + rewrite bind_insert. destruct Hr as [Hmatch Hfrom].
      destruct (IH Hsub' (set_track_match_cache (<[sp_id st := td_id t]>) s))
        as (s' & Hrun & HI' & Hf & Hc & Hq);
        [apply confirmed_pairs_insert; [done|done|by right|done]|].
      by exists s'.
    + rewrite bind_print.
      destruct (IH Hsub' (add_stdout
                  [CouldNotFindTrack (sp_id st) (artist_names_of st ",") (sp_name st)] s))
        as (s' & Hrun & HI' & Hf & Hc & Hq); [by eapply confirmed_pairs_same_caches|].
      by exists s'.
Qed.

Lemma keeps_search_new_tracks_on_tidal new :
  new ⊆ spotify_tracks → (∀ st, st ∈ new → str_truthy (sp_id st) = true) →
  keeps (confirmed_pairs spotify_tracks old_tidal_tracks s0) (λ _, True)
        (search_new_tracks_on_tidal new).
Proof.
  intros Hsub Hids s r s' HI. unfold search_new_tracks_on_tidal.
  assert (∀ st, st ∈ new →
            keeps (confirmed_pairs spotify_tracks old_tidal_tracks s0) (found_for st)
                  (repeat_on_request_error (tidal_search st) 5)) as Hone.
  { intros st Hst. apply keeps_repeat_on_request_error.
    - intros; by eapply confirmed_pairs_same_caches.
    - intros; by eapply confirmed_pairs_same_caches.
    - apply keeps_tidal_search; [by apply Hsub|by apply Hids]. }
  destruct (mapM' (λ t, repeat_on_request_error (tidal_search t) 5) new s)
    as [[results|e] s1] eqn:Hsearch.
  - destruct (keeps_mapM' (confirmed_pairs spotify_tracks old_tidal_tracks s0)
                found_for (λ t, repeat_on_request_error (tidal_search t) 5) new Hone
                s (Ok results) s1 HI Hsearch) as [HI1 Hall].
    erewrite bind_ok by exact Hsearch.
    destruct (keeps_add_search_results new results Hsub Hall s1 HI1)
      as (s2 & Hadd & HI2 & _).
    erewrite bind_ok by exact Hadd. by intros [= <- <-].
  - erewrite bind_raise by exact Hsearch. intros [= <- <-]. split; [|done].
    by destruct (keeps_mapM' (confirmed_pairs spotify_tracks old_tidal_tracks s0)
                   found_for (λ t, repeat_on_request_error (tidal_search t) 5) new Hone
                   s (Raise e) s1 HI Hsearch).
Qed.

Lemma keeps_update_tidal_playlist old new fav :
  keeps (confirmed_pairs spotify_tracks old_tidal_tracks s0) (λ _, True)
        (update_tidal_playlist old new fav).
Proof.
  intros s r s' HI. unfold update_tidal_playlist.
  repeat case_bool_decide; intros [= <- <-]; (split; [|done]);
    by eapply confirmed_pairs_same_caches.
Qed.

Lemma keeps_sync_tracks fav r s' :
  sync_tracks spotify_tracks old_tidal_tracks fav s0 = (r, s') →
  confirmed_pairs spotify_tracks old_tidal_tracks s0 s'.
Proof.
  unfold sync_tracks, get_new_spotify_tracks.
  destruct confirmed_pairs_populate as (s1 & Hpop & HI1).
  erewrite bind_ok; [|erewrite bind_ok by exact Hpop;
                      apply get_new_spotify_tracks_loop_filter].
  simpl.
  destruct (filter (λ st, is_new s1 st = true) spotify_tracks) as [|st new] eqn:Hnew.
  - intros [= <- <-]. by eapply confirmed_pairs_same_caches.
  - assert (st :: new ⊆ spotify_tracks) as Hsub
      by (rewrite <- Hnew; apply list_subseteq_filter).
    assert (∀ x, x ∈ st :: new → str_truthy (sp_id x) = true) as Hids.
    { intros x Hx. rewrite <- Hnew in Hx. apply list_elem_of_filter in Hx as [Hx _].
      unfold is_new in Hx. by apply andb_true_iff in Hx as [[? _]%andb_true_iff _]. }
    destruct (search_new_tracks_on_tidal (st :: new) s1) as [[results|e] s2] eqn:Hsearch.
    + erewrite bind_ok by exact Hsearch.
      destruct (keeps_search_new_tracks_on_tidal (st :: new) Hsub Hids s1 _ _ HI1 Hsearch)
        as [HI2 _].
      intros Hupdate. by destruct (keeps_update_tidal_playlist _ _ _ _ _ _ HI2 Hupdate).
    + erewrite bind_raise by exact Hsearch. intros [= <- <-].
      by destruct (keeps_search_new_tracks_on_tidal (st :: new) Hsub Hids s1 _ _ HI1 Hsearch).
Qed.

End CachesSound.

(** X7: however [sync_tracks] ends, every match record it leaves in the
    cache was there before or maps the id of a source track to the id of a
    track that [match] confirmed for it, and that track is an available
    track of the given target list or a track the catalog returned; every
    failure record was there before or is the id of a source track.  A
    source track without an id is never written to either cache. *)
Theorem sync_tracks_caches_confirmed_pairs_only {U : Unicode} {D : Difflib}
    {TS : TidalSession} (spotify_tracks : list SpotifyTrack)
    (old_tidal_tracks : list TidalTrack) (sync_favorites : bool) (s : State) :
  let s' := (sync_tracks spotify_tracks old_tidal_tracks sync_favorites s).2 in
  (∀ source_id tidal_id, track_match_cache s' !! source_id = Some tidal_id →
     track_match_cache s !! source_id = Some tidal_id
     ∨ ∃ spotify_track tidal_track,
         spotify_track ∈ spotify_tracks ∧ sp_id spotify_track = source_id
         ∧ str_truthy source_id = true
         ∧ td_id tidal_track = tidal_id
         ∧ match_ tidal_track spotify_track = true
         ∧ ((tidal_track ∈ old_tidal_tracks ∧ td_available tidal_track = true)
            ∨ from_catalog tidal_track))
  ∧ (∀ source_id, source_id ∈ failure_cache s' →
       source_id ∈ failure_cache s
       ∨ (str_truthy source_id = true
          ∧ ∃ spotify_track, spotify_track ∈ spotify_tracks
                             ∧ sp_id spotify_track = source_id)).
Proof.
  intros s'. subst s'.
  destruct (sync_tracks spotify_tracks old_tidal_tracks sync_favorites s) as [r s'] eqn:Hrun.
  by apply keeps_sync_tracks in Hrun.
Qed.

(** ** What the searches of a batch leave in the caches *)

Lemma Forall2_conj {A B} (P Q : A → B → Prop) (l : list A) (k : list B) :
  Forall2 P l k → Forall2 Q l k → Forall2 (λ x y, P x y ∧ Q x y) l k.
Proof.
  intros HP. induction HP as [|x y l k Hxy HP IH]; intros HQ.
  - constructor.
  - apply Forall2_cons_1 in HQ as [Hq HQ]. constructor; [done|by apply IH].
Qed.

Section BatchOutcome.
Context {U : Unicode} {D : Difflib} {TS : TidalSession}.

Lemma repeat_tidal_search_outcome st remaining s r s' :
  repeat_on_request_error (tidal_search st) remaining s = (r, s') →
  track_match_cache s' = track_match_cache s
  ∧ (∀ k, k ≠ sp_id st → (k ∈ failure_cache s' ↔ k ∈ failure_cache s))
  ∧ playlist_calls s' = playlist_calls s
  ∧ match r with Ok o => search_outcome s' st o | Raise _ => True end.
Proof.
  intros Hrun.
  assert (track_match_cache s' = track_match_cache s
          ∧ (∀ k, k ≠ sp_id st → (k ∈ failure_cache s' ↔ k ∈ failure_cache s))
          ∧ playlist_calls s' = playlist_calls s) as (Hm & Hf & Hc).
  { refine (proj1 (keeps_repeat_on_request_error
              (λ x, track_match_cache x = track_match_cache s
                    ∧ (∀ k, k ≠ sp_id st → (k ∈ failure_cache x ↔ k ∈ failure_cache s))
                    ∧ playlist_calls x = playlist_calls s)
              (λ _, True) (tidal_search st) remaining _ _ _ s r s' _ Hrun)).
    - by intros x evs.
    - by intros x seconds.
    - intros x rx x' (Hm & Hf & Hc) Hx.
      apply tidal_search_any in Hx as (n & (Hm' & Hf' & _ & _ & Hc' & _) & _).
      split; [|by destruct rx]. split; [congruence|]. split; [|congruence].
      intros k Hk. by rewrite Hf', Hf.
    - done. }
  split; [done|]. split; [done|]. split; [done|].
  pose proof (repeat_on_request_error_any (tidal_search st) remaining s) as Hany.
  rewrite Hrun in Hany. destruct r as [o|e]; [|done].
  destruct Hany as [x Hx]. apply tidal_search_any in Hx as (n & _ & _ & Hr).
  destruct o as [t|]; simpl; [done|]. rewrite Hr. set_solver.
Qed.

Lemma mapM'_search_outcomes (new : list SpotifyTrack) (s : State)
    (results : list (option TidalTrack)) (s' : State) :
  NoDup (sp_id <$> new) →
  mapM' (λ t, repeat_on_request_error (tidal_search t) 5) new s = (Ok results, s') →
  track_match_cache s' = track_match_cache s
  ∧ (∀ k, k ∉ sp_id <$> new → (k ∈ failure_cache s' ↔ k ∈ failure_cache s))
  ∧ playlist_calls s' = playlist_calls s
  ∧ Forall2 (search_outcome s') new results.
Proof.
  revert s results s'. induction new as [|st new IH]; intros s results s' Hnodup.
  - intros [= <- <-]. split; [done|]. split; [done|]. split; [done|]. constructor.
  - rewrite fmap_cons in Hnodup. apply list.NoDup_cons in Hnodup as [Hfresh Hnodup].
    cbn [mapM'].
    destruct (repeat_on_request_error (tidal_search st) 5 s) as [[o|e] s1] eqn:Hhead;
      [|by erewrite bind_raise by exact Hhead].
    erewrite bind_ok by exact Hhead.
    destruct (mapM' (λ t, repeat_on_request_error (tidal_search t) 5) new s1)
      as [[os|e] s2] eqn:Htail;
      [|by erewrite bind_raise by exact Htail].
    erewrite bind_ok by exact Htail. intros [= <- <-].
    apply repeat_tidal_search_outcome in Hhead as (Hm1 & Hf1 & Hc1 & Ho).
    apply IH in Htail as (Hm2 & Hf2 & Hc2 & Hos); [|done].
    split; [congruence|]. split; [|split; [congruence|]].
    + intros k Hk. rewrite fmap_cons in Hk.
      apply not_elem_of_cons in Hk as [Hne Hk]. by rewrite Hf2, Hf1.
    + constructor; [|done].
      unfold search_outcome in *. destruct o as [t|].
      * destruct Ho as (Hmatch & Hfrom & Hout). split; [done|]. split; [done|].
        by rewrite Hf2.
      * by rewrite Hf2.
Qed.

Lemma add_search_results_lookup (new : list SpotifyTrack)
    (results : list (option TidalTrack)) (m0 : gmap (option string) Z) (s : State) :
  NoDup (sp_id <$> new) → length new = length results →
  (∀ st, st ∈ new → track_match_cache s !! sp_id st = m0 !! sp_id st) →
  ∃ s', add_search_results new results s = (Ok (), s')
        ∧ failure_cache s' = failure_cache s
        ∧ playlist_calls s' = playlist_calls s
        ∧ (∀ k, k ∉ sp_id <$> new → track_match_cache s' !! k = track_match_cache s !! k)
        ∧ Forall2 (λ st r, track_match_cache s' !! sp_id st
                           = match r with
                             | Some t => Some (td_id t)
                             | None => m0 !! sp_id st
                             end) new results.
Proof.
  revert results s. induction new as [|st new IH]; intros [|r results] s Hnodup Hlen Hm0;
    try discriminate Hlen.
  - exists s. split; [done|]. split; [done|]. split; [done|]. split; [done|]. constructor.
  - rewrite fmap_cons in Hnodup. apply list.NoDup_cons in Hnodup as [Hfresh Hnodup].
    injection Hlen as Hlen. cbn [add_search_results].
    assert (∀ x, x ∈ new → sp_id x ≠ sp_id st) as Hother.
    { intros x Hx Heq. apply Hfresh. rewrite <- Heq. by apply list_elem_of_fmap_2. }
    destruct r as [t|].
    + rewrite bind_insert.
      destruct (IH results (set_track_match_cache (<[sp_id st := td_id t]>) s))
        as (s' & Hrun & Hf & Hc & Hkeep & Hall); [done|done| |].
      { intros x Hx. simpl. rewrite lookup_insert_ne by (symmetry; by apply Hother).
        apply Hm0. by apply list_elem_of_further. }
      exists s'. split; [done|]. split; [done|]. split; [done|]. split.
      * intros k Hk. rewrite fmap_cons in Hk.
        apply not_elem_of_cons in Hk as [Hne Hk].
        rewrite Hkeep by done. simpl. by rewrite lookup_insert_ne.
      * constructor; [|done]. rewrite Hkeep by done. simpl. by rewrite lookup_insert_eq.
    + rewrite bind_print.
      destruct (IH results (add_stdout
                  [CouldNotFindTrack (sp_id st) (artist_names_of st ",") (sp_name st)] s))
        as (s' & Hrun & Hf & Hc & Hkeep & Hall); [done|done| |].
      { intros x Hx. simpl. apply Hm0. by apply list_elem_of_further. }
      exists s'. split; [done|]. split; [done|]. split; [done|]. split.
      * intros k Hk. rewrite fmap_cons in Hk.
        apply not_elem_of_cons in Hk as [Hne Hk]. by rewrite Hkeep.
      * constructor; [|done]. rewrite Hkeep by done. simpl.
        apply Hm0, list_elem_of_here.
Qed.

End BatchOutcome.

(** X8: when [search_new_tracks_on_tidal] returns for tracks with pairwise
    distinct ids, it returns one result per track, in order; a track with a
    result has a match record for exactly that result, which the catalog
    returned and [match] confirms, and no failure record; a track without a
    result has a failure record and its match record is untouched.  Records
    of other ids and the playlist are untouched. *)
Theorem search_new_tracks_on_tidal_caches_every_outcome {U : Unicode} {D : Difflib}
    {TS : TidalSession} (new_spotify_tracks : list SpotifyTrack) (s s' : State)
    (search_results : list (option TidalTrack)) :
  NoDup (sp_id <$> new_spotify_tracks) →
  search_new_tracks_on_tidal new_spotify_tracks s = (Ok search_results, s') →
  Forall2 (λ st r,
             match r with
             | Some t =>
                 match_ t st = true
                 ∧ from_catalog t
                 ∧ track_match_cache s' !! sp_id st = Some (td_id t)
                 ∧ (sp_id st ∉ failure_cache s')
             | None =>
                 sp_id st ∈ failure_cache s'
                 ∧ track_match_cache s' !! sp_id st = track_match_cache s !! sp_id st
             end) new_spotify_tracks search_results
  ∧ (∀ k, k ∉ sp_id <$> new_spotify_tracks →
          track_match_cache s' !! k = track_match_cache s !! k
          ∧ (k ∈ failure_cache s' ↔ k ∈ failure_cache s))
  ∧ playlist_calls s' = playlist_calls s.
Proof.
  intros Hnodup. unfold search_new_tracks_on_tidal.
  destruct (mapM' (λ t, repeat_on_request_error (tidal_search t) 5) new_spotify_tracks s)
    as [[results|e] s1] eqn:Hsearch;
    [|by erewrite bind_raise by exact Hsearch].
  erewrite bind_ok by exact Hsearch.
  apply mapM'_search_outcomes in Hsearch as (Hm1 & Hf1 & Hc1 & Hout); [|done].
  destruct (add_search_results_lookup new_spotify_tracks results (track_match_cache s) s1)
    as (s2 & Hadd & Hf2 & Hc2 & Hkeep & Hlook);
    [done|by eapply Forall2_length|by intros; rewrite Hm1|].
  erewrite bind_ok by exact Hadd. intros [= <- <-].
  split; [|split].
  - pose proof (Forall2_conj _ _ _ _ Hout Hlook) as Hboth.
    eapply Forall2_impl; [|exact Hboth].
    intros st [t|] [Ho Hl]; unfold search_outcome in Ho; rewrite Hf2.
    + by destruct Ho as (? & ? & ?).
    + done.
  - intros k Hk. rewrite Hkeep, Hm1, Hf2 by done. split; [done|]. by apply Hf1.
  - congruence.
Qed.

Lemma search_new_tracks_on_tidal_caches_every_outcome_witness :
  let s1 := track_s "s1" "First" "Band" 200000 (Some "USABC1234567") in
  let s2 := track_s "s2" "Second" "Band" 180000 (Some "GBXYZ7654321") in
  let t2 := track_t 2 "Second" "Band" 180 (Some "GBXYZ7654321") true in
  let s' := (search_new_tracks_on_tidal (U := AsciiText) (D := any_ratio)
               (TS := one_album t2) [s1; s2] initial_state).2 in
  Forall2 (λ st r,
             match r with
             | Some t =>
                 match_ (U := AsciiText) t st = true
                 ∧ from_catalog (TS := one_album t2) t
                 ∧ track_match_cache s' !! sp_id st = Some (td_id t)
                 ∧ (sp_id st ∉ failure_cache s')
             | None =>
                 sp_id st ∈ failure_cache s'
                 ∧ track_match_cache s' !! sp_id st
                   = track_match_cache initial_state !! sp_id st
             end) [s1; s2] [None; Some t2].
Proof.
  intros s1 s2 t2 s'.
  apply (search_new_tracks_on_tidal_caches_every_outcome (U := AsciiText) (D := any_ratio)
           (TS := one_album t2) [s1; s2] initial_state s' [None; Some t2]).
  - apply list.NoDup_cons. split; [|apply NoDup_singleton].
    intros Hin%list_elem_of_singleton. discriminate.
  - vm_compute. reflexivity.
Defined.

(** ** The id list as a whole *)

Lemma resolve_Some (m : gmap (option string) Z) (st : SpotifyTrack) (t : Z) :
  resolve m st = Some t ↔
  str_truthy (sp_id st) = true ∧ m !! sp_id st = Some t ∧ t ≠ 0.
Proof.
  unfold resolve. destruct (str_truthy (sp_id st)); [|naive_solver].
  destruct (m !! sp_id st) as [t'|]; [|naive_solver].
  destruct (t' =? 0) eqn:Hz.
  - apply Z.eqb_eq in Hz. naive_solver.
  - apply Z.eqb_neq in Hz. naive_solver.
Qed.

Section DedupWhole.
Variable m : gmap (option string) Z.

Lemma emitted_elem l seen t :
  t ∈ emitted m l seen ↔ t ∉ seen ∧ ∃ st, st ∈ l ∧ resolve m st = Some t.
Proof.
  revert seen. induction l as [|st l IH]; intros seen; simpl.
  - split; [by intros ?%elem_of_nil|]. intros (_ & st & Hst%elem_of_nil & _). done.
  - destruct (resolve m st) as [t'|] eqn:Hst.
    + destruct (decide (t' ∈ seen)) as [Hseen|Hseen].
      * rewrite IH. split.
        -- intros (Ht & x & Hx & Hr). split; [done|]. exists x.
           split; [by apply list_elem_of_further|done].
        -- intros (Ht & x & Hx & Hr). split; [done|].
           apply elem_of_cons in Hx as [->|Hx]; [|by eauto].
           rewrite Hst in Hr. injection Hr as ->. done.
      * rewrite elem_of_cons, IH. split.
        -- intros [-> | (Ht & x & Hx & Hr)].
           ++ split; [done|]. exists st. split; [apply list_elem_of_here|done].
           ++ split; [set_solver|]. exists x. split; [by apply list_elem_of_further|done].
        -- intros (Ht & x & Hx & Hr).
           destruct (decide (t = t')) as [->|Hne]; [by left|right].
           split; [set_solver|].
           apply elem_of_cons in Hx as [->|Hx]; [congruence|by eauto].
    + rewrite IH. split.
      * intros (Ht & x & Hx & Hr). split; [done|]. exists x.
        split; [by apply list_elem_of_further|done].
      * intros (Ht & x & Hx & Hr). split; [done|].
        apply elem_of_cons in Hx as [->|Hx]; [congruence|by eauto].
Qed.

Lemma emitted_NoDup l seen : NoDup (emitted m l seen).
Proof.
  revert seen. induction l as [|st l IH]; intros seen; simpl; [constructor|].
  destruct (resolve m st) as [t|]; [|done].
  destruct (decide (t ∈ seen)); [done|].
  apply list.NoDup_cons. split; [|done]. apply emitted_not_seen. set_solver.
Qed.

Lemma emitted_repeated_length l seen :
  (length (emitted m l seen) + length (repeated m l seen))%nat
  = length (omap (resolve m) l).
Proof.
  revert seen. induction l as [|st l IH]; intros seen; [done|].
  cbn [emitted repeated omap list_omap].
  destruct (resolve m st) as [t|]; [|apply IH].
  destruct (decide (t ∈ seen)); cbn [length].
  - specialize (IH seen). lia.
  - specialize (IH ({[t]} ∪ seen)). lia.
Qed.

Lemma reported_repeated l seen :
  reported m l seen
  = (λ st, DuplicateFound (sp_name st) (artist_names_of st ", ")) <$> repeated m l seen.
Proof.
  revert seen. induction l as [|st l IH]; intros seen; [done|].
  cbn [reported repeated].
  destruct (resolve m st) as [t|]; [|apply IH].
  destruct (decide (t ∈ seen)); [|apply IH]. by rewrite fmap_cons, IH.
Qed.

Lemma repeated_sublist l seen : repeated m l seen `sublist_of` l.
Proof.
  revert seen. induction l as [|st l IH]; intros seen; simpl; [done|].
  destruct (resolve m st) as [t|]; [|by apply sublist_cons].
  destruct (decide (t ∈ seen)); [by apply sublist_skip|by apply sublist_cons].
Qed.

Lemma repeated_elem l seen st :
  st ∈ repeated m l seen →
  ∃ t, resolve m st = Some t ∧ (t ∈ seen ∨ t ∈ emitted m l seen).
Proof.
  revert seen. induction l as [|st' l IH]; intros seen; simpl.
  - by intros ?%elem_of_nil.
  - destruct (resolve m st') as [t'|] eqn:Hst'; [|apply IH].
    destruct (decide (t' ∈ seen)) as [Hseen|Hseen].
    + intros [->|Hin]%elem_of_cons; [by eauto|]. by apply IH.
    + intros Hin. destruct (IH _ Hin) as (t & Hres & [Hin'|Hin']).
      * exists t. split; [done|].
        apply elem_of_union in Hin' as [->%elem_of_singleton|Hin']; [|by left].
        right. apply list_elem_of_here.
      * exists t. split; [done|]. right. by apply list_elem_of_further.
Qed.

Lemma emitted_sublist l seen : emitted m l seen `sublist_of` omap (resolve m) l.
Proof.
  revert seen. induction l as [|st l IH]; intros seen; simpl; [done|].
  destruct (resolve m st) as [t|]; [|done].
  destruct (decide (t ∈ seen)); [by apply sublist_cons|by apply sublist_skip].
Qed.

End DedupWhole.

(** X9: [get_tracks_for_new_tidal_playlist] always returns and only prints.
    Its id list has no duplicate at all; it holds exactly the non-zero ids
    the Match Cache gives for the source tracks that have an id, in source
    order.  What it prints is one "Duplicate found" line, with the track's
    name and artists, for each track of a sub-sequence of the source
    sequence, each of which resolves to an id that is in the list; and these
    tracks and the ids of the list together account for every source track
    that resolves. *)
Theorem get_tracks_for_new_tidal_playlist_no_duplicates
    (spotify_tracks : list SpotifyTrack) (s : State) :
  ∃ output duplicates,
    get_tracks_for_new_tidal_playlist spotify_tracks s
    = (Ok output,
       add_stdout ((λ st, DuplicateFound (sp_name st) (artist_names_of st ", "))
                   <$> duplicates) s)
    ∧ NoDup output
    ∧ (∀ t, t ∈ output ↔
            ∃ st, st ∈ spotify_tracks ∧ str_truthy (sp_id st) = true
                  ∧ track_match_cache s !! sp_id st = Some t ∧ t ≠ 0)
    ∧ output `sublist_of` omap (resolve (track_match_cache s)) spotify_tracks
    ∧ duplicates `sublist_of` spotify_tracks
    ∧ (∀ st, st ∈ duplicates →
         ∃ t, str_truthy (sp_id st) = true
              ∧ track_match_cache s !! sp_id st = Some t ∧ t ≠ 0 ∧ t ∈ output)
    ∧ (length output + length duplicates)%nat
      = length (omap (resolve (track_match_cache s)) spotify_tracks).
Proof.
  exists (emitted (track_match_cache s) spotify_tracks ∅),
         (repeated (track_match_cache s) spotify_tracks ∅).
  split; [|split; [|split; [|split; [|split; [|split]]]]].
  - unfold get_tracks_for_new_tidal_playlist.
    rewrite (get_tracks_for_new_tidal_playlist_loop_spec (track_match_cache s)) by done.
    by rewrite reported_repeated.
  - apply emitted_NoDup.
  - intros t. rewrite emitted_elem. split.
    + intros (_ & st & Hst & Hr). apply resolve_Some in Hr. eauto.
    + intros (st & Hst & Hr). split; [set_solver|]. exists st. split; [done|].
      by apply resolve_Some.
  - apply emitted_sublist.
  - apply repeated_sublist.
  - intros st Hst. apply repeated_elem in Hst as (t & Hres & [Hin|Hin]); [set_solver|].
    apply resolve_Some in Hres as (Hid & Hlook & Hnz). by exists t.
  - apply emitted_repeated_length.
Qed.

(** ** The pages that are fetched *)

Lemma ceil_div_gt (a b k : Z) : 0 < b → (k < ceil_div a b ↔ b * k < a).
Proof.
  intros Hb. unfold ceil_div.
  pose proof (Z.mul_div_le (- a) b Hb) as Hlo.
  pose proof (Z.mul_succ_div_gt (- a) b Hb) as Hhi.
  split; intros Hk; nia.
Qed.

(** X10: [_fetch_all_from_spotify_in_chunks] fetches only the page at offset
    0 when that page names no next page; when it names one, a page size of 0
    raises [ZeroDivisionError], and for a positive page size the further
    offsets are exactly the positive multiples of the page size below the
    total, the i-th of them (counting from 1) being i times the page size.  The result is the tracks of these
    pages in that order, and the state is untouched. *)
Theorem fetch_all_offsets (fetch_function : Z → Page) (s : State) :
  let results := fetch_function 0 in
  (str_truthy (pg_next results) = false →
     _fetch_all_from_spotify_in_chunks fetch_function s = (Ok (page_tracks results), s))
  ∧ (str_truthy (pg_next results) = true → pg_limit results = 0 →
     _fetch_all_from_spotify_in_chunks fetch_function s = (Raise ZeroDivisionError, s))
  ∧ (str_truthy (pg_next results) = true → 0 < pg_limit results →
     ∃ offsets,
       _fetch_all_from_spotify_in_chunks fetch_function s
       = (Ok (page_tracks results
              ++ concat (map (λ offset, page_tracks (fetch_function offset)) offsets)), s)
       ∧ (∀ offset, offset ∈ offsets ↔
            ∃ n, 0 < n ∧ offset = pg_limit results * n ∧ offset < pg_total results)
       ∧ (∀ i offset, offsets !! i = Some offset →
            offset = pg_limit results * (Z.of_nat i + 1))).
Proof.
  intros results. unfold _fetch_all_from_spotify_in_chunks. fold results.
  split; [|split].
  - by intros ->.
  - intros -> ->. done.
  - intros -> Hlimit.
    assert ((pg_limit results =? 0) = false) as -> by (apply Z.eqb_neq; lia).
    exists ((λ n, pg_limit results * n)
            <$> seqZ 1 (ceil_div (pg_total results) (pg_limit results) - 1)).
    split; [|split].
    + do 3 f_equal. by rewrite <- list_fmap_compose.
    + intros offset. rewrite list_elem_of_fmap. split.
      * intros (n & -> & Hn%elem_of_seqZ). exists n. split; [lia|]. split; [done|].
        apply ceil_div_gt; [done|lia].
      * intros (n & Hn & -> & Hlt). exists n. split; [done|].
        apply elem_of_seqZ. apply ceil_div_gt in Hlt; [lia|done].
    + intros i offset. rewrite list_lookup_fmap.
      intros Hi. apply fmap_Some in Hi as (n & Hn%lookup_seqZ & ->). lia.
Qed.

Lemma fetch_all_offsets_witness :
  let fetch_function := current_user_saved_tracks (SpotifySession := two_pages) in
  ∃ offsets,
    _fetch_all_from_spotify_in_chunks fetch_function initial_state
    = (Ok (page_tracks (fetch_function 0)
           ++ concat (map (λ offset, page_tracks (fetch_function offset)) offsets)),
       initial_state)
    ∧ (∀ offset, offset ∈ offsets ↔
         ∃ n, 0 < n ∧ offset = pg_limit (fetch_function 0) * n
              ∧ offset < pg_total (fetch_function 0))
    ∧ (∀ i offset, offsets !! i = Some offset →
         offset = pg_limit (fetch_function 0) * (Z.of_nat i + 1)).
Proof.
  intros fetch_function.
  apply (proj2 (proj2 (fetch_all_offsets fetch_function initial_state))).
  - reflexivity.
  - reflexivity.
Defined.

(** ** Strings: pieces and substrings *)

Lemma str_app_cons (x : ascii) (a b : string) : String x a +:+ b = String x (a +:+ b).
Proof. done. Qed.

Lemma str_app_nil_r (s : string) : s +:+ "" = s.
Proof. induction s as [|c s IH]; [done|]. by rewrite str_app_cons, IH. Qed.

Lemma str_app_assoc (a b c : string) : (a +:+ b) +:+ c = a +:+ (b +:+ c).
Proof. induction a as [|x a IH]; [done|]. by rewrite !str_app_cons, IH. Qed.

Lemma str_length_app (a b : string) :
  String.length (a +:+ b) = (String.length a + String.length b)%nat.
Proof. induction a as [|x a IH]; [done|]. rewrite str_app_cons. cbn. by rewrite IH. Qed.

Lemma str_rev_app (a b : string) : String.rev_app a b = String.rev a +:+ b.
Proof.
  revert b. induction a as [|x a IH]; intros b; [done|].
  unfold String.rev. cbn. rewrite (IH (String x b)), (IH (String x "")).
  by rewrite str_app_assoc.
Qed.

Lemma str_rev_cons (x : ascii) (a : string) :
  String.rev (String x a) = String.rev a +:+ String x "".
Proof. unfold String.rev at 1. cbn. apply str_rev_app. Qed.

Lemma str_rev_app_distr (a b : string) :
  String.rev (a +:+ b) = String.rev b +:+ String.rev a.
Proof.
  induction a as [|x a IH]; [by rewrite str_app_nil_r|].
  by rewrite str_app_cons, !str_rev_cons, IH, str_app_assoc.
Qed.

Lemma str_rev_involutive (s : string) : String.rev (String.rev s) = s.
Proof.
  induction s as [|x s IH]; [done|].
  by rewrite str_rev_cons, str_rev_app_distr, IH.
Qed.

Lemma prefix_spec (n h : string) : String.prefix n h = true ↔ ∃ b, h = n +:+ b.
Proof.
  revert h. induction n as [|x n IH]; intros h.
  - split; [by exists h|]. by destruct h.
  - destruct h as [|y h]; cbn.
    { split; [done|]. by intros [b ?]. }
    destruct (ascii_dec x y) as [->|Hne].
    + rewrite IH. split; intros [b Hb]; exists b; [by rewrite Hb|].
      by injection Hb.
    + split; [done|]. intros [b Hb]. injection Hb as Hxy _. by destruct Hne.
Qed.

Lemma contains_spec (n h : string) :
  Str.contains n h = true ↔ ∃ a b, h = a +:+ n +:+ b.
Proof.
  induction h as [|y h IH]; cbn [Str.contains].
  - rewrite orb_false_r, prefix_spec. split.
    + intros [b Hb]. by exists "", b.
    + intros (a & b & Hab). destruct a; [by exists b|done].
  - rewrite orb_true_iff, prefix_spec, IH. split.
    + intros [[b Hb] | (a & b & Hab)]; [by exists "", b|].
      exists (String y a), b. by rewrite Hab.
    + intros (a & b & Hab). destruct a as [|x a]; [left; by exists b|right].
      injection Hab as _ Hab. by exists a, b.
Qed.

Lemma contains_part (n x h : string) :
  (∃ a b, h = a +:+ x +:+ b) → Str.contains n h = false → Str.contains n x = false.
Proof.
  intros (a & b & ->) Hno. apply not_true_is_false. intros (a' & b' & ->)%contains_spec.
  apply not_true_iff_false in Hno. apply Hno, contains_spec.
  exists (a +:+ a'), (b' +:+ b). by rewrite !str_app_assoc.
Qed.

Lemma part_trans (x y z : string) :
  (∃ a b, y = a +:+ x +:+ b) → (∃ a b, z = a +:+ y +:+ b) → ∃ a b, z = a +:+ x +:+ b.
Proof.
  intros (a & b & ->) (a' & b' & ->). exists (a' +:+ a), (b +:+ b').
  by rewrite !str_app_assoc.
Qed.

Lemma split0_prefix (sep s : string) : ∃ b, s = Str.split0 sep s +:+ b.
Proof.
  unfold Str.split0. induction s as [|c s [b Hb]]; [by exists ""|].
  cbn [Str.split_go]. destruct (String.prefix sep (String c s)).
  - by exists (String c s).
  - destruct (Str.split_go sep 0 s) as [p ps]. exists b. cbn [fst] in *. by rewrite str_app_cons, <- Hb.
Qed.

Lemma split0_part (sep s : string) : ∃ a b, s = a +:+ Str.split0 sep s +:+ b.
Proof. destruct (split0_prefix sep s) as [b Hb]. by exists "", b. Qed.

Lemma split0_absent (sep s : string) :
  Str.contains sep s = false → Str.split0 sep s = s.
Proof.
  unfold Str.split0. induction s as [|c s IH]; [done|].
  cbn [Str.contains Str.split_go]. intros [Hhead Htail]%orb_false_iff.
  rewrite Hhead. destruct (Str.split_go sep 0 s) as [p ps]. cbn [fst] in *. by rewrite IH.
Qed.

Lemma split0_char_free (c : ascii) (s : string) :
  Str.contains (String c "") (Str.split0 (String c "") s) = false.
Proof.
  unfold Str.split0. induction s as [|d s IH]; [done|].
  cbn [Str.split_go]. destruct (String.prefix (String c "") (String d s)) eqn:Hhead.
  - done.
  - destruct (Str.split_go (String c "") 0 s) as [p ps]. cbn [fst] in *.
    cbn [Str.contains]. rewrite IH, orb_false_r.
    apply not_true_is_false. intros [b Hb]%prefix_spec.
    apply not_true_iff_false in Hhead. apply Hhead, prefix_spec.
    injection Hb as -> _. by exists s.
Qed.

Lemma lstrip_suffix (s : string) : ∃ a, s = a +:+ Str.lstrip s.
Proof.
  induction s as [|c s [a Ha]]; [by exists ""|]. cbn.
  destruct (Str.isspace c); [|by exists ""]. exists (String c a). by rewrite Ha at 1.
Qed.

Lemma lstrip_idem (s : string) : Str.lstrip (Str.lstrip s) = Str.lstrip s.
Proof.
  induction s as [|c s IH]; [done|]. cbn.
  destruct (Str.isspace c) eqn:Hc; [done|]. cbn. by rewrite Hc.
Qed.

Lemma rstrip_prefix (s : string) : ∃ b, s = Str.rstrip s +:+ b.
Proof.
  unfold Str.rstrip. destruct (lstrip_suffix (String.rev s)) as [a Ha].
  exists (String.rev a).
  by rewrite <- str_rev_app_distr, <- Ha, str_rev_involutive.
Qed.

Lemma rstrip_idem (s : string) : Str.rstrip (Str.rstrip s) = Str.rstrip s.
Proof. unfold Str.rstrip. by rewrite str_rev_involutive, lstrip_idem. Qed.

Lemma lstrip_prefix_fixed (x p : string) :
  Str.lstrip x = x → (∃ b, x = p +:+ b) → Str.lstrip p = p.
Proof.
  intros Hx [b ->]. destruct p as [|c p]; [done|].
  rewrite str_app_cons in Hx. cbn [Str.lstrip] in *.
  destruct (Str.isspace c); [|done]. exfalso.
  generalize dependent (p +:+ b). intros x Hx.
  destruct (lstrip_suffix x) as [a Ha]. rewrite Hx in Ha.
  apply (f_equal String.length) in Ha. rewrite str_length_app in Ha.
  cbn [String.length] in Ha. lia.
Qed.

Lemma strip_idem (s : string) : Str.strip (Str.strip s) = Str.strip s.
Proof.
  unfold Str.strip.
  rewrite (lstrip_prefix_fixed (Str.lstrip s) (Str.rstrip (Str.lstrip s))).
  - apply rstrip_idem.
  - apply lstrip_idem.
  - apply rstrip_prefix.
Qed.

Lemma strip_part (s : string) : ∃ a b, s = a +:+ Str.strip s +:+ b.
Proof.
  unfold Str.strip. destruct (lstrip_suffix s) as [a Ha].
  destruct (rstrip_prefix (Str.lstrip s)) as [b Hb].
  exists a, b. by rewrite <- Hb.
Qed.

Lemma simple_part (s : string) : ∃ a b, s = a +:+ simple s +:+ b.
Proof.
  unfold simple.
  repeat (first [eapply part_trans; [apply strip_part|]
                |eapply part_trans; [apply split0_part|]]).
  exists "", "". by rewrite str_app_nil_r.
Qed.

(** ** The matcher's signals *)

(** X11: [simple] returns a part of its input that holds no hyphen and no
    round or square opening bracket and has no white space at either end,
    and simplifying a second time changes nothing. *)
Theorem simple_idempotent (input_string : string) :
  let output := simple input_string in
  simple output = output
  ∧ Str.strip output = output
  ∧ Str.contains output input_string = true
  ∧ (∀ sep, sep ∈ ["-"; "("; "["] → Str.contains sep output = false).
Proof.
  intros output.
  assert (Str.strip output = output) as Hstrip by apply strip_idem.
  assert (∀ sep, sep ∈ ["-"; "("; "["] → Str.contains sep output = false) as Hfree.
  { intros sep Hsep. subst output. unfold simple.
    set (a := Str.split0 "-" input_string).
    set (b := Str.split0 "(" (Str.strip a)).
    set (c := Str.split0 "[" (Str.strip b)).
    assert (Str.contains "[" (Str.strip c) = false) as Hc.
    { eapply contains_part; [apply strip_part|apply split0_char_free]. }
    assert (Str.contains "(" (Str.strip c) = false) as Hb.
    { eapply contains_part; [apply strip_part|].
      eapply contains_part; [apply split0_part|].
      eapply contains_part; [apply strip_part|apply split0_char_free]. }
    assert (Str.contains "-" (Str.strip c) = false) as Ha.
    { eapply contains_part; [apply strip_part|].
      eapply contains_part; [apply split0_part|].
      eapply contains_part; [apply strip_part|].
      eapply contains_part; [apply split0_part|].
      eapply contains_part; [apply strip_part|apply split0_char_free]. }
    apply elem_of_cons in Hsep as [->|Hsep]; [done|].
    apply elem_of_cons in Hsep as [->|Hsep]; [done|].
    apply elem_of_cons in Hsep as [->|Hsep]; [done|].
    by apply elem_of_nil in Hsep. }
  split; [|split; [done|split; [|done]]].
  - unfold simple at 1.
    rewrite (split0_absent "-" output)
      by (apply Hfree, list_elem_of_here).
    rewrite Hstrip.
    rewrite (split0_absent "(" output)
      by (apply Hfree, list_elem_of_further, list_elem_of_here).
    rewrite Hstrip.
    rewrite (split0_absent "[" output)
      by (apply Hfree, list_elem_of_further, list_elem_of_further, list_elem_of_here).
    done.
  - apply contains_spec, simple_part.
Qed.

(** X12: the duration check compares exact values: a pair passes it exactly
    when the candidate's duration in milliseconds and the source's differ by
    less than 2000. *)
Theorem duration_match_milliseconds {U : Unicode} (tidal_track : TidalTrack)
    (spotify_track : SpotifyTrack) :
  duration_match tidal_track spotify_track = true
  ↔ Z.abs (1000 * td_duration tidal_track - sp_duration_ms spotify_track) < 2000.
Proof.
  rewrite duration_match_true, Qabs_Qlt_condition.
  unfold Qlt, Qminus, Qplus, Qopp, Qdiv, Qmult, Qinv, inject_Z. cbn.
  lia.
Qed.

(** X13: the simplified source title is a part of the source title, so a
    candidate whose lower-cased title contains the whole lower-cased source
    title passes [name_match] whenever none of the three keywords is on one
    side only. *)
Theorem name_match_title_contained {U : Unicode} (tidal_track : TidalTrack)
    (spotify_track : SpotifyTrack) :
  (∀ pattern, pattern ∈ ["instrumental"; "acapella"; "remix"] →
     spotify_has_pattern pattern spotify_track = tidal_has_pattern pattern tidal_track) →
  Str.contains (lower (sp_name spotify_track)) (lower (td_name tidal_track)) = true →
  name_match tidal_track spotify_track = true.
Proof.
  intros Hsame Hin. unfold name_match.
  assert (∀ pattern, pattern ∈ ["instrumental"; "acapella"; "remix"] →
            exclusion_rule pattern tidal_track spotify_track = false) as Hrule.
  { intros pattern Hp. apply not_true_is_false. rewrite exclusion_rule_true.
    intros Hne. by apply Hne, Hsame. }
  rewrite !Hrule
    by first [apply list_elem_of_here
             |apply list_elem_of_further, list_elem_of_here
             |apply list_elem_of_further, list_elem_of_further, list_elem_of_here].
  apply orb_true_iff. left. apply contains_spec.
  eapply part_trans; [apply strip_part|].
  eapply part_trans; [apply split0_part|].
  eapply part_trans; [apply simple_part|].
  by apply contains_spec.
Qed.

Lemma name_match_title_contained_witness :
  name_match (U := AsciiText)
    (track_t 1 "Hello World (Live at the BBC)" "Adele" 200 None true)
    (track_s "s1" "Hello World" "Adele" 200000 None) = true.
Proof.
  apply (name_match_title_contained (U := AsciiText)).
  - intros pattern Hp.
    apply elem_of_cons in Hp as [->|Hp]; [reflexivity|].
    apply elem_of_cons in Hp as [->|Hp]; [reflexivity|].
    apply elem_of_cons in Hp as [->|Hp]; [reflexivity|].
    by apply elem_of_nil in Hp.
  - reflexivity.
Defined.

Section ArtistFacts.
Context {U : Unicode}.

Lemma split_artist_name_hd (artist : string) : ∃ x l, split_artist_name artist = x :: l.
Proof.
  unfold split_artist_name, Str.split.
  destruct (Str.contains "&" artist); [destruct (Str.split_go "&" 0 artist); eauto|].
  destruct (Str.contains "," artist); [destruct (Str.split_go "," 0 artist); eauto|].
  eauto.
Qed.

Lemma elem_of_concat_map {A B} (f : A → list B) (l : list A) (x : A) (y : B) :
  x ∈ l → y ∈ f x → y ∈ concat (map f l).
Proof.
  intros Hx Hy. induction l as [|z l IH]; [by apply elem_of_nil in Hx|].
  cbn. apply elem_of_app. apply elem_of_cons in Hx as [->|Hx]; [by left|right; by apply IH].
Qed.

Lemma elem_of_map {A B} (f : A → B) (l : list A) (x : A) : x ∈ l → f x ∈ map f l.
Proof.
  intros Hx. induction l as [|z l IH]; [by apply elem_of_nil in Hx|].
  cbn. apply elem_of_cons. apply elem_of_cons in Hx as [->|Hx]; [by left|right; by apply IH].
Qed.

Lemma get_artists_of_name (names : list string) (do_normalize : bool) (name : string) :
  name ∈ names →
  ∃ x l, split_artist_name (if do_normalize then normalize name else name) = x :: l
         ∧ simple (lower (Str.strip x)) ∈ get_artists names do_normalize.
Proof.
  intros Hname.
  destruct (split_artist_name_hd (if do_normalize then normalize name else name))
    as (x & l & Hsplit).
  exists x, l. split; [done|]. unfold get_artists. apply elem_of_list_to_set.
  apply (elem_of_map (λ x, simple (lower (Str.strip x)))).
  apply (elem_of_concat_map
           (λ artist_name, split_artist_name
                             (if do_normalize then normalize artist_name else artist_name))
           names name); [done|].
  cbn beta. rewrite Hsplit. apply list_elem_of_here.
Qed.

End ArtistFacts.

(** X14: two artist lists that share a name, spelled the same on both sides,
    pass [artist_match], whatever else they hold and however the name is
    split. *)
Theorem artist_match_shared_name {U : Unicode} (tidal : list TidalArtist)
    (spotify : list SpotifyArtist) (name : string) :
  name ∈ map ta_name tidal → name ∈ map sa_name spotify →
  artist_match tidal spotify = true.
Proof.
  intros Ht Hs. unfold artist_match, get_tidal_artists, get_spotify_artists.
  destruct (get_artists_of_name _ false name Ht) as (x & l & Hsplit & Hx).
  destruct (get_artists_of_name _ false name Hs) as (x' & l' & Hsplit' & Hx').
  rewrite Hsplit in Hsplit'. injection Hsplit' as <- <-.
  rewrite bool_decide_eq_true_2; [done|].
  intros Hempty. apply (not_elem_of_empty (C := gset string) (simple (lower (Str.strip x)))).
  rewrite <- Hempty. by apply elem_of_intersection.
Qed.

Lemma artist_match_shared_name_witness :
  artist_match (U := AsciiText)
    [ {| ta_name := "Simon & Garfunkel" |} ]
    [ {| sa_name := "Somebody Else" |}; {| sa_name := "Simon & Garfunkel" |} ] = true.
Proof.
  apply (artist_match_shared_name (U := AsciiText) _ _ "Simon & Garfunkel").
  - apply list_elem_of_here.
  - apply list_elem_of_further, list_elem_of_here.
Defined.

(** X15: a record without artists on either side never passes
    [artist_match]. *)
Theorem artist_match_no_artists {U : Unicode} (tidal : list TidalArtist)
    (spotify : list SpotifyArtist) :
  artist_match [] spotify = false ∧ artist_match tidal [] = false.
Proof.
  unfold artist_match, get_tidal_artists, get_spotify_artists, get_artists. cbn.
  split.
  - rewrite !bool_decide_eq_false_2; [done| |]; intros Hne; apply Hne; set_solver.
  - rewrite !bool_decide_eq_false_2; [done| |]; intros Hne; apply Hne; set_solver.
Qed.

(** ** What a run writes to the target *)

Section TargetWrites.
Context {U : Unicode} {D : Difflib} {TS : TidalSession}.

Lemma keeps_calls_tidal_search st calls :
  keeps (λ x, playlist_calls x = calls) (found_for st) (tidal_search st).
Proof.
  intros s r s' HI Hrun.
  apply tidal_search_any in Hrun as (n & (_ & _ & _ & _ & Hc & _) & _ & Hr).
  split; [congruence|]. destruct r as [[t|]|e]; [|done|done]. by destruct Hr as (? & ? & ?).
Qed.

Lemma add_search_results_calls {Q : SpotifyTrack → option TidalTrack → Prop}
    (new : list SpotifyTrack) (results : list (option TidalTrack)) (s : State) :
  Forall2 Q new results →
  ∃ s', add_search_results new results s = (Ok (), s')
        ∧ playlist_calls s' = playlist_calls s.
Proof.
  intros Hall. revert s. induction Hall as [|st r new results _ _ IH]; intros s.
  - by exists s.
  - cbn [add_search_results]. destruct r as [t|].
    + rewrite bind_insert.
      destruct (IH (set_track_match_cache (<[sp_id st := td_id t]>) s)) as (s' & Hrun & Hc).
      by exists s'.
    + rewrite bind_print.
      destruct (IH (add_stdout
                  [CouldNotFindTrack (sp_id st) (artist_names_of st ",") (sp_name st)] s))
        as (s' & Hrun & Hc).
      by exists s'.
Qed.

Lemma search_new_tracks_on_tidal_calls (new : list SpotifyTrack) (s : State)
    (r : Result (list (option TidalTrack))) (s' : State) :
  search_new_tracks_on_tidal new s = (r, s') →
  playlist_calls s' = playlist_calls s
  ∧ match r with
    | Ok results => Forall2 found_for new results
    | Raise _ => True
    end.
Proof.
  unfold search_new_tracks_on_tidal.
  destruct (mapM' (λ t, repeat_on_request_error (tidal_search t) 5) new s)
    as [r1 s1] eqn:Hsearch.
  destruct (keeps_mapM' (λ x, playlist_calls x = playlist_calls s) found_for
              (λ t, repeat_on_request_error (tidal_search t) 5) new) with (s := s)
              (r := r1) (s' := s1) as [Hcalls Hall]; [|done|done|].
  { intros st _. apply keeps_repeat_on_request_error; [done|done|].
    apply keeps_calls_tidal_search. }
  destruct r1 as [results|e].
  - erewrite bind_ok by exact Hsearch.
    destruct (add_search_results_calls new results s1 Hall) as (s2 & Hadd & Hcalls2).
    erewrite bind_ok by exact Hadd. intros [= <- <-]. split; [congruence|done].
  - erewrite bind_raise by exact Hsearch. by intros [= <- <-].
Qed.

Lemma update_tidal_playlist_calls (old_tidal_tracks : list TidalTrack)
    (new_tidal_tracks : list (option TidalTrack)) (sync_favorites : bool)
    (s : State) (r : Result unit) (s' : State) :
  update_tidal_playlist old_tidal_tracks new_tidal_tracks sync_favorites s = (r, s') →
  playlist_calls s' = playlist_calls s
  ∨ ∃ track_ids,
      track_ids `suffix_of` map td_id (omap id new_tidal_tracks)
      ∧ (playlist_calls s'
         = playlist_calls s ++ [add_multiple_tracks_to_playlist track_ids sync_favorites]
         ∨ playlist_calls s'
           = playlist_calls s ++ [set_tidal_playlist track_ids sync_favorites]).
Proof.
  unfold update_tidal_playlist. repeat case_bool_decide; intros [= <- <-].
  - by left.
  - right. eexists. split; [|by left].
    eexists (take _ _). by rewrite take_drop.
  - right. eexists. split; [|by right]. done.
Qed.

Lemma sync_tracks_calls (spotify_tracks : list SpotifyTrack)
    (old_tidal_tracks : list TidalTrack) (sync_favorites : bool)
    (s s1 : State) (r : Result unit) (s' : State) :
  populate_track_match_cache spotify_tracks old_tidal_tracks s = (Ok (), s1) →
  sync_tracks spotify_tracks old_tidal_tracks sync_favorites s = (r, s') →
  playlist_calls s' = playlist_calls s
  ∨ ∃ search_results track_ids,
      (search_new_tracks_on_tidal
         (filter (λ st, is_new s1 st = true) spotify_tracks) s1).1 = Ok search_results
      ∧ Forall2 found_for (filter (λ st, is_new s1 st = true) spotify_tracks) search_results
      ∧ track_ids `suffix_of` map td_id (omap id search_results)
      ∧ (playlist_calls s'
         = playlist_calls s ++ [add_multiple_tracks_to_playlist track_ids sync_favorites]
         ∨ playlist_calls s'
           = playlist_calls s ++ [set_tidal_playlist track_ids sync_favorites]).
Proof.
  intros Hpop.
  destruct (populate_track_match_cache_inv spotify_tracks old_tidal_tracks s)
    as (s1' & Hpop' & (_ & _ & _ & _ & Hcalls1) & _).
  rewrite Hpop in Hpop'. injection Hpop' as <-.
  unfold sync_tracks, get_new_spotify_tracks.
  erewrite bind_ok; [|erewrite bind_ok by exact Hpop;
                      apply get_new_spotify_tracks_loop_filter].
  simpl.
  destruct (filter (λ st, is_new s1 st = true) spotify_tracks) as [|st new] eqn:Hnew.
  { intros [= <- <-]. by left. }
  destruct (search_new_tracks_on_tidal (st :: new) s1) as [[results|e] s2] eqn:Hsearch.
  - erewrite bind_ok by exact Hsearch.
    apply search_new_tracks_on_tidal_calls in Hsearch as [Hcalls2 Hall].
    intros Hupdate. apply update_tidal_playlist_calls in Hupdate as [Hsame | Hwrite].
    + left. congruence.
    + right. destruct Hwrite as (track_ids & Hsuffix & Hcalls3).
      exists results, track_ids. split; [done|]. split; [done|]. split; [done|].
      rewrite <- Hcalls1, <- Hcalls2. exact Hcalls3.
  - erewrite bind_raise by exact Hsearch. intros [= <- <-]. left.
    apply search_new_tracks_on_tidal_calls in Hsearch as [Hcalls2 _]. congruence.
Qed.

End TargetWrites.

(** X16: however [sync_tracks] ends, it has issued at most one playlist
    mutation, with the caller's favorites flag.  The ids in it are the ids
    of the tracks that this run's search returned, in their order, or a
    final part of them; the search was run on the source tracks that, after
    pre-population, had an id, no cached match and no cached failure, and
    each track it returned came from the catalog and is confirmed by [match]
    for the source track at the same position. *)
Theorem sync_tracks_writes_found_tracks_only {U : Unicode} {D : Difflib}
    {TS : TidalSession} (spotify_tracks : list SpotifyTrack)
    (old_tidal_tracks : list TidalTrack) (sync_favorites : bool) (s : State) :
  let s1 := (populate_track_match_cache spotify_tracks old_tidal_tracks s).2 in
  let new_spotify_tracks := filter (λ st, is_new s1 st = true) spotify_tracks in
  let s' := (sync_tracks spotify_tracks old_tidal_tracks sync_favorites s).2 in
  playlist_calls s' = playlist_calls s
  ∨ ∃ search_results track_ids,
      (search_new_tracks_on_tidal new_spotify_tracks s1).1 = Ok search_results
      ∧ Forall2 (λ spotify_track result,
                   match result with
                   | Some tidal_track =>
                       match_ tidal_track spotify_track = true
                       ∧ from_catalog tidal_track
                   | None => True
                   end) new_spotify_tracks search_results
      ∧ track_ids `suffix_of` map td_id (omap id search_results)
      ∧ (playlist_calls s'
         = playlist_calls s ++ [add_multiple_tracks_to_playlist track_ids sync_favorites]
         ∨ playlist_calls s'
           = playlist_calls s ++ [set_tidal_playlist track_ids sync_favorites]).
Proof.
  intros s1 new_spotify_tracks s'. subst s1 new_spotify_tracks s'.
  destruct (populate_track_match_cache_inv spotify_tracks old_tidal_tracks s)
    as (s1 & Hpop & _).
  rewrite Hpop.
  destruct (sync_tracks spotify_tracks old_tidal_tracks sync_favorites s) as [r s'] eqn:Hrun.
  by eapply sync_tracks_calls.
Qed.

(** ** Pre-population with nothing to pair *)

Lemma foldM_populate_from_spotify_empty {U : Unicode} (spotify_tracks : list SpotifyTrack)
    (s : State) :
  foldM _populate_one_track_from_spotify spotify_tracks [] s = (Ok [], s).
Proof.
  induction spotify_tracks as [|st l IH]; [done|].
  cbn [foldM]. by erewrite bind_ok by reflexivity.
Qed.

Lemma foldM_populate_from_tidal_empty {U : Unicode} (tidal_tracks : list TidalTrack)
    (s : State) :
  foldM _populate_one_track_from_tidal tidal_tracks [] s = (Ok [], s).
Proof.
  induction tidal_tracks as [|t l IH]; [done|].
  cbn [foldM]. by erewrite bind_ok by reflexivity.
Qed.

(** X17: pre-population against an empty target list, or for an empty source
    list, returns and leaves the whole state as it was. *)
Theorem populate_track_match_cache_nothing_to_pair {U : Unicode}
    (spotify_tracks : list SpotifyTrack) (tidal_tracks : list TidalTrack) (s : State) :
  populate_track_match_cache spotify_tracks [] s = (Ok (), s)
  ∧ populate_track_match_cache [] tidal_tracks s = (Ok (), s).
Proof.
  unfold populate_track_match_cache. split.
  - cbn [foldM]. rewrite bind_mret.
    by erewrite bind_ok by apply foldM_populate_from_spotify_empty.
  - by erewrite bind_ok by apply foldM_populate_from_tidal_empty.
Qed.

(** ** A favorites sync *)

Lemma _fetch_all_from_spotify_in_chunks_state (fetch_function : Z → Page) (s : State) :
  (_fetch_all_from_spotify_in_chunks fetch_function s).2 = s.
Proof.
  unfold _fetch_all_from_spotify_in_chunks.
  destruct (str_truthy (pg_next (fetch_function 0))); [|done].
  by destruct (pg_limit (fetch_function 0) =? 0).
Qed.

Lemma get_tracks_from_spotify_favorites_state {SS : SpotifySession} (s : State)
    (r : Result (list SpotifyTrack)) (s' : State) :
  get_tracks_from_spotify_favorites s = (r, s') → s' = add_stdout [LoadingFavorites] s.
Proof.
  unfold get_tracks_from_spotify_favorites. rewrite bind_print.
  pose proof (_fetch_all_from_spotify_in_chunks_state current_user_saved_tracks
                (add_stdout [LoadingFavorites] s)) as Hstate.
  destruct (_fetch_all_from_spotify_in_chunks current_user_saved_tracks
              (add_stdout [LoadingFavorites] s)) as [[tracks|e] s1] eqn:Hfetch;
    cbn [snd] in Hstate; subst s1.
  - erewrite bind_ok by exact Hfetch. by intros [= <- <-].
  - erewrite bind_raise by exact Hfetch. by intros [= <- <-].
Qed.

(** X18: a favorites sync that meets a first page with a next page and page
    size 0 stops with [ZeroDivisionError] right after its loading line; and
    however a favorites sync ends, it has issued at most one mutation, and
    that one carries the favorites flag. *)
Theorem sync_favorites_writes_favorites_only {U : Unicode} {D : Difflib}
    {TS : TidalSession} {SS : SpotifySession} (s : State) :
  let first := current_user_saved_tracks 0 in
  let run := sync_favorites s in
  (str_truthy (pg_next first) = true → pg_limit first = 0 →
     run = (Raise ZeroDivisionError, add_stdout [LoadingFavorites] s))
  ∧ (playlist_calls run.2 = playlist_calls s
     ∨ ∃ track_ids,
         playlist_calls run.2
         = playlist_calls s ++ [add_multiple_tracks_to_playlist track_ids true]
         ∨ playlist_calls run.2
           = playlist_calls s ++ [set_tidal_playlist track_ids true]).
Proof.
  intros first run. subst run. unfold sync_favorites. split.
  - intros Hnext Hlimit.
    erewrite bind_raise; [done|].
    unfold get_tracks_from_spotify_favorites. rewrite bind_print.
    erewrite bind_raise; [done|].
    unfold _fetch_all_from_spotify_in_chunks. fold first. by rewrite Hnext, Hlimit.
  - destruct (get_tracks_from_spotify_favorites s) as [[tracks|e] s0] eqn:Hfav.
    + erewrite bind_ok by exact Hfav.
      apply get_tracks_from_spotify_favorites_state in Hfav as ->.
      destruct (populate_track_match_cache_inv tracks favorites_tracks
                  (add_stdout [LoadingFavorites] s)) as (s1 & Hpop & _).
      destruct (sync_tracks tracks favorites_tracks true (add_stdout [LoadingFavorites] s))
        as [r s'] eqn:Hrun.
      destruct (sync_tracks_calls _ _ _ _ _ _ _ Hpop Hrun) as [Hsame | Hwrite].
      * by left.
      * right. destruct Hwrite as (results & track_ids & _ & _ & _ & Hcalls).
        by exists track_ids.
    + erewrite bind_raise by exact Hfav.
      apply get_tracks_from_spotify_favorites_state in Hfav as ->. by left.
Qed.

Lemma sync_favorites_writes_favorites_only_witness :
  let malformed : SpotifySession :=
    {| current_user_saved_tracks := λ _,
         {| pg_items := []; pg_next := Some "https://api.spotify.com/v1/me/tracks?offset=0";
            pg_limit := 0; pg_total := 4 |} |} in
  sync_favorites (U := AsciiText) (D := any_ratio) (TS := no_catalog) (SS := malformed)
    initial_state
  = (Raise ZeroDivisionError, add_stdout [LoadingFavorites] initial_state).
Proof.
  intros malformed.
  apply (proj1 (sync_favorites_writes_favorites_only (U := AsciiText) (D := any_ratio)
                  (TS := no_catalog) (SS := malformed) initial_state)).
  - reflexivity.
  - reflexivity.
Defined.
